(** * HOOD, [utils/show.py]: placement, colouring and export of rollouts

    A shallow embedding of the deterministic core of [utils/show.py]:
    [place_meshes], [adjust_color], [add_seq],
    [export_animated_mesh_to_obj_sequence] and the exports of [write_video].

    Numbers.  The arrays of the script hold binary64 floats.  The main
    model computes with canonical rationals [Qc] and exact arithmetic:
    vertex coordinates are finite and zero carries no sign; colour channels
    are [fnum], exact rationals extended with the values a division can
    produce ([+inf], [-inf], [nan]).  Theorems over this model describe the
    code up to the rounding of each operation.  Where a property depends on
    that rounding, the last part of the definitions gives [place_meshes] and
    [adjust_color] once more over the primitive binary64 floats, and the
    property is settled there on concrete inputs.

    Arrays.  Position arrays have shape (T, V, 3) and are lists of frames.
    [place_meshes] updates its arguments in place and returns them; the
    model returns the updated arrays.  Colours are one-dimensional float
    arrays.  Face arrays are integer arrays of up to three dimensions; the
    exporter adds one to an index in the integer type of the array, taken
    to be 64 bits wide.  The viewer's [Meshes] is a record of the attributes
    the script sets and reads: the checks of its constructor (a face array
    must be two-dimensional) and its conversion of the faces to 32-bit
    integers are not part of the model, so the theorems on exported faces
    are stated for face lists of shape (F, 3) whose indices fit 32 bits.

    Errors.  A Python exception is a value [Err e] of [result]. *)

From Stdlib Require Import QArith Qabs Qcanon Ascii PrimFloat.
From Stdlib Require Import DecimalString DecimalFacts DecimalPos DecimalN DecimalZ.
From stdpp Require Import base option numbers list strings gmap.

Local Open Scope Qc_scope.

(** ** Python exceptions and fallible computations *)

Inductive pyerr : Type :=
  | KeyError (key : string)
  | IndexError
  | ValueError
  | TypeError.

Inductive result (A : Type) : Type :=
  | Ok (a : A)
  | Err (e : pyerr).
Arguments Ok {A} a.
Arguments Err {A} e.

Global Instance result_ret : MRet result := fun A a => Ok a.
Global Instance result_bind : MBind result := fun A B f m =>
  match m with
  | Ok a => f a
  | Err e => Err e
  end.

(** ** Arrays of positions *)

(** The last axis of a position array has length 3; [ax0], [ax1], [ax2] are
    the entries [p[0]], [p[1]], [p[2]].  Axis 1 is the up axis. *)
Record vec3 : Type := Vec3 { ax0 : Qc; ax1 : Qc; ax2 : Qc }.

(** A position array of shape (T, V, 3): a list of frames, each a list of
    vertices. *)
Abbreviation frames := (list (list vec3)).

(** Python's builtin [min(a, b)]: the first argument unless the second is
    strictly smaller. *)
Definition py_min (a b : Qc) : Qc := if decide (b < a) then b else a.

(** [a.min()] of a flattened array: [ValueError] on a zero-size array. *)
Definition np_min (l : list Qc) : result Qc :=
  match l with
  | [] => Err ValueError
  | x :: r => Ok (foldl py_min x r)
  end.

(** [a[0]] on the first axis: [IndexError] when the axis is empty. *)
Definition index0 {A} (l : list A) : result A :=
  match l with
  | [] => Err IndexError
  | x :: _ => Ok x
  end.

(** [a[:, :, 1]] and [a[0, :, 1]], flattened. *)
Definition up_all (a : frames) : list Qc := ax1 <$> concat a.
Definition up_frame (f : list vec3) : list Qc := ax1 <$> f.

(** [a[..., 1] -= c], [a[..., 0] += c], [a[..., 2] += c]. *)
Definition sub_ax1 (c : Qc) (a : frames) : frames :=
  fmap (M := list) (fmap (M := list) (fun p => Vec3 (ax0 p) (ax1 p - c) (ax2 p))) a.
Definition add_ax0 (c : Qc) (a : frames) : frames :=
  fmap (M := list) (fmap (M := list) (fun p => Vec3 (ax0 p + c) (ax1 p) (ax2 p))) a.
Definition add_ax2 (c : Qc) (a : frames) : frames :=
  fmap (M := list) (fmap (M := list) (fun p => Vec3 (ax0 p) (ax1 p) (ax2 p + c))) a.

(** ** [place_meshes] *)

(** The value the code binds to [min_z]. *)
Definition floor_offset (cloth_pos : frames) (obstacle_pos : option frames)
  : result Qc :=
  match obstacle_pos with
  | Some obs =>
      o ← np_min (up_all obs);
      c0 ← index0 cloth_pos;
      c ← np_min (up_frame c0);
      mret (py_min o c)
  | None =>
      c0 ← index0 cloth_pos;
      c ← np_min (up_frame c0);
      mret (c - 2)
  end.

Definition place_meshes (cloth_pos : frames) (obstacle_pos : option frames)
    (x_shift y_shift : Qc) : result (frames * option frames) :=
  min_z ← floor_offset cloth_pos obstacle_pos;
  let cloth_pos := sub_ax1 min_z cloth_pos in
  let cloth_pos := add_ax0 x_shift cloth_pos in
  let cloth_pos := add_ax2 y_shift cloth_pos in
  let obstacle_pos :=
    match obstacle_pos with
    | Some obs => Some (add_ax2 y_shift (add_ax0 x_shift (sub_ax1 min_z obs)))
    | None => None
    end in
  mret (cloth_pos, obstacle_pos).

(** Rationals from integer literals. *)
Definition qz (n : Z) : Qc := Q2Qc (inject_Z n).
Definition qfrac (n : Z) (d : positive) : Qc := Q2Qc (n # d).

(** [a[t, v]], when both indices are in range. *)
Definition vertex_at (a : frames) (t v : nat) : option vec3 :=
  a !! t ≫= (λ f, f !! v).

(** ** Colour channels *)

(** A float of a colour array: a finite value, an infinity or a NaN. *)
Inductive fnum : Type :=
  | Fin (q : Qc)
  | PInf
  | NInf
  | NaN.

Global Instance fnum_eq_dec : EqDecision fnum.
Proof. solve_decision. Defined.

(** IEEE division as numpy's [true_divide] performs it on floats: a
    non-zero finite value over zero is an infinity, zero over zero and
    infinity over infinity are NaN; no exception is raised. *)
Definition fdiv (a b : fnum) : fnum :=
  match a, b with
  | NaN, _ | _, NaN => NaN
  | Fin x, Fin y =>
      if decide (y = 0) then
        if decide (x = 0) then NaN else if decide (0 < x) then PInf else NInf
      else Fin (x / y)
  | Fin _, (PInf | NInf) => Fin 0
  | PInf, Fin y => if decide (y < 0) then NInf else PInf
  | NInf, Fin y => if decide (y < 0) then PInf else NInf
  | (PInf | NInf), (PInf | NInf) => NaN
  end.

Definition fmul (a b : fnum) : fnum :=
  match a, b with
  | NaN, _ | _, NaN => NaN
  | Fin x, Fin y => Fin (x * y)
  | Fin x, PInf | PInf, Fin x =>
      if decide (x = 0) then NaN else if decide (0 < x) then PInf else NInf
  | Fin x, NInf | NInf, Fin x =>
      if decide (x = 0) then NaN else if decide (0 < x) then NInf else PInf
  | PInf, PInf | NInf, NInf => PInf
  | PInf, NInf | NInf, PInf => NInf
  end.

Definition fadd (a b : fnum) : fnum :=
  match a, b with
  | NaN, _ | _, NaN => NaN
  | Fin x, Fin y => Fin (x + y)
  | PInf, NInf | NInf, PInf => NaN
  | PInf, _ | _, PInf => PInf
  | NInf, _ | _, NInf => NInf
  end.

(** [np.maximum]: the larger value; a NaN operand gives NaN. *)
Definition fmax (a b : fnum) : fnum :=
  match a, b with
  | NaN, _ | _, NaN => NaN
  | PInf, _ | _, PInf => PInf
  | NInf, x | x, NInf => x
  | Fin x, Fin y => if decide (x < y) then Fin y else Fin x
  end.

(** [a.max(axis=-1)] along a 1-d array: [ValueError] when it is empty. *)
Definition np_max (l : list fnum) : result fnum :=
  match l with
  | [] => Err ValueError
  | x :: r => Ok (foldl fmax x r)
  end.

(** The constant [0.3]. *)
Definition c03 : fnum := Fin (qfrac 3 10).

(** [a[..., :3] = f(a[..., :3])] on a 1-d array: the first three entries (or
    fewer, if the array is shorter) are replaced, the others are kept. *)
Definition update_rgb (f : fnum → fnum) (color : list fnum) : list fnum :=
  (f <$> take 3 color) ++ drop 3 color.

(** ** [adjust_color], on one colour (a 1-d float array) *)
Definition adjust_color (color : list fnum) : result (list fnum) :=
  m ← np_max (take 3 color);
  let color := update_rgb (λ c, fdiv c m) color in
  let color := update_rgb (λ c, fmul c c03) color in
  let color := update_rgb (λ c, fadd c c03) color in
  mret color.

(** The spec's reading of the degenerate case, for comparison with the
    code: all-zero RGB is rejected. *)
Definition adjust_color_fail_fast (color : list fnum) : result (list fnum) :=
  if decide (take 3 color = [Fin 0; Fin 0; Fin 0]) then Err ValueError
  else adjust_color color.

(** A result that contains a NaN. *)
Definition has_nan (color : list fnum) : Prop := NaN ∈ color.

(** The value of a muted channel when the maximum [m] is finite and not
    zero: [x / m * 0.3 + 0.3]. *)
Definition muted (x m : Qc) : Qc := x / m * qfrac 3 10 + qfrac 3 10.

(** The colour [(r, g, b, a)]. *)
Definition rgba (r g b a : fnum) : list fnum := [r; g; b; a].

(** ** Integer arrays *)

(** An integer array of dimension 0 to 3 (a scalar, a row, a face list, a
    face list per frame).  Entries are 64-bit signed integers. *)
Inductive iarr : Type :=
  | I0 (z : Z)
  | I1 (l : list Z)
  | I2 (l : list (list Z))
  | I3 (l : list (list (list Z))).

Global Instance iarr_eq_dec : EqDecision iarr.
Proof. solve_decision. Defined.

(** [len(a.shape)]. *)
Definition ndim (a : iarr) : nat :=
  match a with I0 _ => 0 | I1 _ => 1 | I2 _ => 2 | I3 _ => 3 end.

(** [a[i]] for a non-negative [i]: [IndexError] out of range and on a
    scalar. *)
Definition nth_res {A} (l : list A) (i : nat) : result A :=
  match l !! i with
  | Some x => Ok x
  | None => Err IndexError
  end.

Definition getitem (a : iarr) (i : nat) : result iarr :=
  match a with
  | I0 _ => Err IndexError
  | I1 l => z ← nth_res l i; mret (I0 z)
  | I2 l => r ← nth_res l i; mret (I1 r)
  | I3 l => f ← nth_res l i; mret (I2 f)
  end.

(** [for x in a]: the entries along the first axis; a scalar cannot be
    iterated. *)
Definition iter_arr (a : iarr) : result (list iarr) :=
  match a with
  | I0 _ => Err TypeError
  | I1 l => Ok (I0 <$> l)
  | I2 l => Ok (I1 <$> l)
  | I3 l => Ok (I2 <$> l)
  end.

(** Wrap-around of 64-bit signed arithmetic. *)
Definition wrap64 (z : Z) : Z :=
  ((z + 2 ^ 63) `mod` 2 ^ 64 - 2 ^ 63)%Z.

(** [a + 1], entry by entry. *)
Definition plus_one (a : iarr) : iarr :=
  let inc := λ z : Z, wrap64 (z + 1) in
  match a with
  | I0 z => I0 (inc z)
  | I1 l => I1 (inc <$> l)
  | I2 l => I2 (fmap (M := list) inc <$> l)
  | I3 l => I3 (fmap (M := list) (fmap (M := list) inc) <$> l)
  end.

(** [int(a)]: a scalar, or an array with exactly one entry; [TypeError]
    for any other array. *)
Definition py_int (a : iarr) : result Z :=
  match a with
  | I0 z | I1 [z] | I2 [[z]] | I3 [[[z]]] => Ok z
  | _ => Err TypeError
  end.

(** ** Text formatting *)

Local Open Scope string_scope.

(** [str(n)] for a non-negative integer and for any integer. *)
Definition str_N (n : N) : string := NilZero.string_of_uint (N.to_uint n).
Definition str_nat (n : nat) : string := str_N (N.of_nat n).
Definition str_int (z : Z) : string :=
  NilZero.string_of_int (Z.to_int z).

Fixpoint zeros (n : nat) : string :=
  match n with
  | O => ""
  | S n => String "0"%char (zeros n)
  end.

(** Left padding with zeros up to a minimal width, as the format
    specification [04] does for a non-negative integer. *)
Definition zero_pad (width : nat) (s : string) : string :=
  zeros (width - String.length s) +:+ s.

(** [f"{i:04}"]. *)
Definition fmt_04 (i : nat) : string := zero_pad 4 (str_nat i).

(** Rounding of a non-negative rational to the nearest integer, ties to
    even. *)
Definition round_half_even (q : Q) : Z :=
  let n := Qnum q in
  let d := Z.pos (Qden q) in
  let fl := (n `div` d)%Z in
  match (2 * (n `mod` d) ?= d)%Z with
  | Lt => fl
  | Gt => (fl + 1)%Z
  | Eq => if Z.even fl then fl else (fl + 1)%Z
  end.

(** The number of millionths printed for [q]. *)
Definition millionths (q : Qc) : Z :=
  round_half_even (Qabs q * inject_Z 1000000).

(** The decimal digit of [n mod 10], and the last [w] decimal digits of
    [n]. *)
Definition digit (n : N) : string :=
  String (ascii_of_N (48 + n `mod` 10)) "".
Fixpoint fixed_digits (w : nat) (n : N) : string :=
  match w with
  | O => ""
  | S w => fixed_digits w (n `div` 10) +:+ digit n
  end.

(** [f"{x:.6f}"] for a finite [x]: sign, integer part, point, six digits. *)
Definition fmt_6f (q : Qc) : string :=
  let n := Z.to_N (millionths q) in
  (if decide (q < 0)%Qc then "-" else "")
  +:+ str_N (n `div` 1000000)
  +:+ "."
  +:+ fixed_digits 6 n.

Definition newline : string := String (ascii_of_nat 10) "".

(** [f"v {v[0]:.6f} {v[1]:.6f} {v[2]:.6f}\\n"]. *)
Definition vertex_line (v : vec3) : string :=
  "v " +:+ fmt_6f (ax0 v) +:+ " " +:+ fmt_6f (ax1 v) +:+ " "
  +:+ fmt_6f (ax2 v) +:+ newline.

(** [int(face[k]+1)]. *)
Definition face_index (face : iarr) (k : nat) : result Z :=
  x ← getitem face k; py_int (plus_one x).

(** [f"f {int(face[0]+1)} {int(face[1]+1)} {int(face[2]+1)}\\n"]. *)
Definition face_line (face : iarr) : result string :=
  a ← face_index face 0;
  b ← face_index face 1;
  c ← face_index face 2;
  mret ("f " +:+ str_int a +:+ " " +:+ str_int b +:+ " " +:+ str_int c
        +:+ newline).

(** [os.path.join(dir, name)] on POSIX. *)
Definition starts_with_slash (s : string) : bool :=
  match s with
  | String c _ => bool_decide (c = "/"%char)
  | EmptyString => false
  end.

Fixpoint ends_with_slash (s : string) : bool :=
  match s with
  | EmptyString => false
  | String c EmptyString => bool_decide (c = "/"%char)
  | String _ r => ends_with_slash r
  end.

Definition path_join (dir name : string) : string :=
  if starts_with_slash name then name
  else if bool_decide (dir = "") || ends_with_slash dir then dir +:+ name
  else dir +:+ "/" +:+ name.

(** [f"{basename}_{i:04}.obj"] and the path it is written to. *)
Definition frame_name (basename : string) (i : nat) : string :=
  basename +:+ "_" +:+ fmt_04 i +:+ ".obj".
Definition frame_path (output_dir basename : string) (i : nat) : string :=
  path_join output_dir (frame_name basename i).

(** ** Meshes and the file system *)

(** An [aitviewer] mesh sequence, by the attributes this script sets and
    reads.  The constructor of the viewer also checks that the face array
    is two-dimensional and keeps the faces as 32-bit integers; both are left
    to the statements that depend on them. *)
Record Meshes : Type := MkMeshes {
  vertices : frames;
  faces : iarr;
  name : string;
  color : list fnum;
  backface_culling : bool
}.

(** The part of the world the exporter acts on: the regular files, by
    path, and the text printed so far.  Directories are not modelled:
    creating the output directory and opening a file in it succeed. *)
Record world : Type := World {
  files : gmap string string;
  stdout : list string
}.

(** Computations that act on the world and may raise. *)
Definition io (A : Type) : Type := world → world * result A.

Definition io_ret {A} (a : A) : io A := λ w, (w, Ok a).
Definition io_bind {A B} (m : io A) (k : A → io B) : io B :=
  λ w, match m w with
       | (w', Ok a) => k a w'
       | (w', Err e) => (w', Err e)
       end.
Definition io_lift {A} (r : result A) : io A := λ w, (w, r).

Notation "x ←ᵢ m ;; k" := (io_bind m (λ x, k))
  (at level 100, m at next level, right associativity).
Notation "m ;;ᵢ k" := (io_bind m (λ _, k))
  (at level 100, right associativity).

(** [open(path, 'w')]: the file is created, or truncated if it exists. *)
Definition open_w (path : string) : io unit :=
  λ w, (World (<[path := ""]> (files w)) (stdout w), Ok ()).

(** [f.write(s)] on the file opened at [path]: [s] is appended. *)
Definition write (path s : string) : io unit :=
  λ w, (World (alter (λ old, old +:+ s) path (files w)) (stdout w), Ok ()).

(** [print(s)]. *)
Definition print (s : string) : io unit :=
  λ w, (World (files w) (stdout w ++ [s]), Ok ()).

(** [for x in l: body(x)]. *)
Fixpoint for_each {A} (l : list A) (body : A → io unit) : io unit :=
  match l with
  | [] => io_ret ()
  | x :: r => body x ;;ᵢ for_each r body
  end.

(** [for i, x in enumerate(l): body(i, x)], counting from [i]. *)
Fixpoint for_enumerate {A} (i : nat) (l : list A) (body : nat → A → io unit)
  : io unit :=
  match l with
  | [] => io_ret ()
  | x :: r => body i x ;;ᵢ for_enumerate (S i) r body
  end.

(** ** [export_animated_mesh_to_obj_sequence] *)

(** The body of the loop over time frames. *)
Definition export_frame (output_dir basename : string) (faces : iarr)
    (i : nat) (verts : list vec3) : io unit :=
  let filename := path_join output_dir (frame_name basename i) in
  open_w filename ;;ᵢ
  for_each verts (λ v, write filename (vertex_line v)) ;;ᵢ
  fs ←ᵢ io_lift (iter_arr faces) ;;
  for_each fs (λ face,
    line ←ᵢ io_lift (face_line face) ;; write filename line) ;;ᵢ
  print ("Wrote frame " +:+ str_nat i +:+ " to " +:+ filename).

Definition export_animated_mesh_to_obj_sequence (mesh : Meshes)
    (output_dir basename : string) : io unit :=
  let vertices_sequence := vertices mesh in
  let faces := faces mesh in
  for_enumerate 0 vertices_sequence (export_frame output_dir basename faces).

(** ** [add_seq] *)

(** An entry of the loaded rollout: a float array of positions or an
    integer array of faces. *)
Inductive value : Type :=
  | VFloat (a : frames)
  | VInt (a : iarr).

(** [traj_dict[key]]. *)
Definition dict_get (d : gmap string value) (key : string) : result value :=
  match d !! key with
  | Some v => Ok v
  | None => Err (KeyError key)
  end.

(** Entries are used at one kind; the other kind is a [TypeError], raised
    where the entry is first used as an array of that kind. *)
Definition as_int (v : value) : result iarr :=
  match v with VInt a => Ok a | VFloat _ => Err TypeError end.
Definition as_float (v : value) : result frames :=
  match v with VFloat a => Ok a | VInt _ => Err TypeError end.

(** [str(name)] inside an f-string, [name] being a string or [None]. *)
Definition str_opt (name : option string) : string := default "None" name.

(** The rollout [traj_dict] is the mapping that [pickle_load(path)] returns.
    [obstacle_faces] and [obstacle_pos] are [Some] exactly when the flag
    [obstacle] of the code is true, [None] standing for Python's [None]; the
    last [match] is the code's [if obstacle]. *)
Definition add_seq (traj_dict : gmap string value) (x_shift y_shift : Qc)
    (cloth_color : option (list fnum)) (name : option string)
    (obstacle_opacity cloth_opacity : fnum) : result (list Meshes) :=
  cloth_faces ← dict_get traj_dict "cloth_faces";
  let obstacle := bool_decide (is_Some (traj_dict !! "obstacle_faces")) in
  '(obstacle_faces, obstacle_pos) ←
    (if obstacle then
       obstacle_faces ← dict_get traj_dict "obstacle_faces";
       obstacle_pos ← dict_get traj_dict "obstacle";
       mret (Some obstacle_faces, Some obstacle_pos)
     else mret (None, None));
  cloth_faces ← as_int cloth_faces;
  '(cloth_faces, obstacle_faces) ←
    (if decide (ndim cloth_faces = 3) then
       cloth_faces ← getitem cloth_faces 0;
       obstacle_faces ←
         match obstacle_faces with
         | Some obstacle_faces =>
             a ← as_int obstacle_faces; a0 ← getitem a 0;
             mret (Some (VInt a0))
         | None => mret None
         end;
       mret (cloth_faces, obstacle_faces)
     else mret (cloth_faces, obstacle_faces));
  pos ← dict_get traj_dict "pred";
  pos ← as_float pos;
  obstacle_pos ←
    match obstacle_pos with
    | Some p => p ← as_float p; mret (Some p)
    | None => mret None
    end;
  '(pos, obstacle_pos) ← place_meshes pos obstacle_pos x_shift y_shift;
  let cloth_color :=
    default [Fin 0; c03; c03; cloth_opacity] cloth_color in
  cloth_color ← adjust_color cloth_color;
  let obstacle_color := [c03; c03; c03; obstacle_opacity] in
  let mesh_cloth :=
    MkMeshes pos cloth_faces (str_opt name +:+ "_cloth") cloth_color false in
  match obstacle_faces, obstacle_pos with
  | Some obstacle_faces, Some obstacle_pos =>
      obstacle_faces ← as_int obstacle_faces;
      let mesh_obstacle :=
        MkMeshes obstacle_pos obstacle_faces (str_opt name +:+ "_obstacle")
                 obstacle_color false in
      mret [mesh_cloth; mesh_obstacle]
  | _, _ => mret [mesh_cloth]
  end.

(** A small rollout: two cloth frames of three vertices, per-frame cloth
    faces, and obstacle positions without obstacle faces. *)
Definition demo_frames : frames :=
  [[Vec3 0 (qz 1) 0; Vec3 (qfrac 1 2) (qz 5) 0; Vec3 0 (qz 3) (qfrac (-1) 3)];
   [Vec3 0 (qz 1) 0; Vec3 (qfrac 1 2) (qz 5) 0; Vec3 0 (qz 3) (qfrac (-1) 7)]].

Definition demo_rollout : gmap string value :=
  <["obstacle" := VFloat [[Vec3 0 (qz (-4)) 0]]]>
    (<["cloth_faces" := VInt (I3 [[[0; 1; 2]]; [[2; 1; 0]]]%Z)]>
       {["pred" := VFloat demo_frames]}).

(** ** The exported files, as the specification describes them *)

(** A face list of shape (F, 3), given by its rows. *)
Definition faces_of_triples (tris : list (Z * Z * Z)) : iarr :=
  I2 ((λ '(a, b, c), [a; b; c]) <$> tris).

(** A vertex record: three coordinates with six decimals. *)
Definition obj_vertex_record (v : vec3) : string :=
  "v " +:+ fmt_6f (ax0 v) +:+ " " +:+ fmt_6f (ax1 v) +:+ " " +:+ fmt_6f (ax2 v).

(** A face record: the three zero-based indices, each shifted by one. *)
Definition obj_face_record (t : Z * Z * Z) : string :=
  let '(a, b, c) := t in
  "f " +:+ str_int (a + 1) +:+ " " +:+ str_int (b + 1) +:+ " "
  +:+ str_int (c + 1).

(** A text made of lines, each closed by a newline. *)
Definition join_lines (ls : list string) : string :=
  foldr (λ l acc, l +:+ newline +:+ acc) "" ls.

(** The content of the file of a frame: V vertex records followed by F face
    records. *)
Definition obj_text (verts : list vec3) (tris : list (Z * Z * Z)) : string :=
  join_lines ((obj_vertex_record <$> verts) ++ (obj_face_record <$> tris)).

(** The number of newline characters of a text. *)
Fixpoint count_nl (s : string) : nat :=
  match s with
  | EmptyString => 0
  | String c r => (if bool_decide (c = ascii_of_nat 10) then 1 else 0) + count_nl r
  end.

(** The line printed after a frame is written. *)
Definition wrote_msg (output_dir basename : string) (i : nat) : string :=
  "Wrote frame " +:+ str_nat i +:+ " to " +:+ frame_path output_dir basename i.

(** The number read back from a string of decimal digits. *)
Definition parse_N (s : string) : option N :=
  N.of_uint <$> NilEmpty.uint_of_string s.

(** ** What one frame writes, as pure functions *)

(** The text of the vertex loop. *)
Definition verts_text (verts : list vec3) : string :=
  foldr (λ v acc, vertex_line v +:+ acc) "" verts.

(** The text written by the face loop before it ends or raises, and how it
    ends. *)
Fixpoint face_lines (fs : list iarr) : string * result unit :=
  match fs with
  | [] => ("", Ok ())
  | face :: r =>
      match face_line face with
      | Ok line => let '(t, o) := face_lines r in (line +:+ t, o)
      | Err e => ("", Err e)
      end
  end.

Definition faces_run (faces : iarr) : string * result unit :=
  match iter_arr faces with
  | Ok fs => face_lines fs
  | Err e => ("", Err e)
  end.

(** The content of the file of a frame when the loop body ends. *)
Definition frame_text (faces : iarr) (verts : list vec3) : string :=
  verts_text verts +:+ (faces_run faces).1.

(** The number written by a string of decimal digits, read from the left
    with the digits read so far in [acc]. *)
Fixpoint digits_value (acc : N) (s : string) : N :=
  match s with
  | EmptyString => acc
  | String c r => digits_value (10 * acc + (N_of_ascii c - 48)) r
  end.

(** A zero-based vertex index that fits a 64-bit integer together with its
    successor. *)
Definition valid_index (z : Z) : Prop := (0 ≤ z < 2 ^ 63 - 1)%Z.
Definition valid_triple (t : Z * Z * Z) : Prop :=
  valid_index t.1.1 ∧ valid_index t.1.2 ∧ valid_index t.2.

(** The world after the loop body of frame [i] has run. *)
Definition frame_written (output_dir basename : string) (faces : iarr)
    (i : nat) (verts : list vec3) (w : world) : world :=
  World (<[frame_path output_dir basename i := frame_text faces verts]> (files w))
        (stdout w ++ match (faces_run faces).2 with
                     | Ok _ => [wrote_msg output_dir basename i]
                     | Err _ => []
                     end).

(** The world after the loop over the frames has run to its end, counting
    from frame [i]. *)
Fixpoint frames_written (output_dir basename : string) (faces : iarr)
    (i : nat) (fr : frames) (w : world) : world :=
  match fr with
  | [] => w
  | verts :: r =>
      frames_written output_dir basename faces (S i) r
        (frame_written output_dir basename faces i verts w)
  end.

(** The mesh of the specification's example: two frames, three vertices,
    one face. *)
Definition demo_mesh : Meshes :=
  MkMeshes demo_frames (faces_of_triples [(0, 1, 2)%Z]) "demo_cloth"
           [c03; c03; c03; Fin 1] false.

(** The same geometry under another name and colour. *)
Definition demo_mesh_renamed : Meshes :=
  MkMeshes demo_frames (faces_of_triples [(0, 1, 2)%Z]) "other"
           [Fin 0; Fin 0; Fin 0; Fin 1] true.

(** A world in which a file of the export already exists. *)
Definition demo_world : world :=
  World {["out/frame_0001.obj" := "stale content"]} ["earlier output"].

(** ** Translations *)

(** The vertex [p] moved by the vector [(dx, -drop, dz)]. *)
Definition move_vec (dx drop dz : Qc) (p : vec3) : vec3 :=
  Vec3 (ax0 p + dx)%Qc (ax1 p - drop)%Qc (ax2 p + dz)%Qc.

(** Two position arrays have the same shape. *)
Definition same_shape (a b : frames) : Prop :=
  length <$> a = length <$> b.

(** The larger of two finite channels, as [fmax] computes it. *)
Definition qmax (x y : Qc) : Qc := if decide (x < y)%Qc then y else x.

(** The face array [a] as [add_seq] passes it on: its frame 0 when the
    cloth face array [cloth_faces] is three-dimensional, [a] itself
    otherwise. *)
Definition normal_faces (cloth_faces a : iarr) : result iarr :=
  if decide (ndim cloth_faces = 3) then getitem a 0 else Ok a.

(** ** The exports of [write_video] *)

(** [f"{out_objs}/{i}/"]. *)
Definition object_dir (out_objs : string) (i : nat) : string :=
  out_objs +:+ "/" +:+ str_nat i +:+ "/".

(** What [write_video] does to the files and the printed text: it builds
    the meshes with the defaults of [add_seq] and exports each of them to
    a directory of its own.  The colour [cmap0] stands for the value of
    [cmap(0.)]; the colour map, the renderer, the camera and the creation
    of the directories are outside the model and taken to return. *)
Definition write_video_exports (traj_dict : gmap string value)
    (out_objs : string) (cmap0 : list fnum) : io unit :=
  objects ←ᵢ io_lift
    (add_seq traj_dict 0%Qc 0%Qc (Some cmap0) None (Fin 1%Qc) (Fin 1%Qc)) ;;
  print ("LENGTH OF OBJECTS " +:+ str_nat (length objects)) ;;ᵢ
  for_enumerate 0 objects (λ i obj,
    export_animated_mesh_to_obj_sequence obj (object_dir out_objs i) "frame").

(** A rollout with a cloth and an obstacle, both with static faces. *)
Definition demo_scene : gmap string value :=
  <["obstacle_faces" := VInt (I2 [[0; 0; 0]]%Z)]>
    (<["cloth_faces" := VInt (I2 [[0; 1; 2]]%Z)]> demo_rollout).

(** * The same arithmetic in binary64

    The arrays of a rollout and the colours hold binary64 floats.  The
    definitions above compute with exact rationals; the definitions below
    are [place_meshes] and [adjust_color] once more, statement by
    statement, over the primitive binary64 numbers, with their rounding,
    infinities, NaN and signed zeros.  They are used to state the steps of
    the code with their rounding and to evaluate it on concrete inputs. *)

#[local] Set Warnings "-inexact-float".

Record vec3f : Type := Vec3f { fx0 : float; fx1 : float; fx2 : float }.

Abbreviation framesf := (list (list vec3f)).

(** Python's builtin [min(a, b)] on floats. *)
Definition py_min_f (a b : float) : float :=
  if PrimFloat.ltb b a then b else a.

(** [np.minimum] and [np.maximum]: a NaN operand is returned. *)
Definition np_minimum_f (a b : float) : float :=
  if PrimFloat.is_nan a then a
  else if PrimFloat.is_nan b then b
  else if PrimFloat.ltb b a then b else a.
Definition np_maximum_f (a b : float) : float :=
  if PrimFloat.is_nan a then a
  else if PrimFloat.is_nan b then b
  else if PrimFloat.ltb a b then b else a.

Definition np_min_f (l : list float) : result float :=
  match l with
  | [] => Err ValueError
  | x :: r => Ok (foldl np_minimum_f x r)
  end.
Definition np_max_f (l : list float) : result float :=
  match l with
  | [] => Err ValueError
  | x :: r => Ok (foldl np_maximum_f x r)
  end.

Definition up_all_f (a : framesf) : list float := fx1 <$> concat a.
Definition up_frame_f (f : list vec3f) : list float := fx1 <$> f.

Definition floor_offset_f64 (cloth_pos : framesf) (obstacle_pos : option framesf)
  : result float :=
  match obstacle_pos with
  | Some obs =>
      o ← np_min_f (up_all_f obs);
      c0 ← index0 cloth_pos;
      c ← np_min_f (up_frame_f c0);
      mret (py_min_f o c)
  | None =>
      c0 ← index0 cloth_pos;
      c ← np_min_f (up_frame_f c0);
      mret (PrimFloat.sub c 2)
  end.

(** The three in-place updates of one array. *)
Definition shift_f64 (min_z x_shift y_shift : float) (a : framesf) : framesf :=
  let a := fmap (M := list) (fmap (M := list)
             (λ p, Vec3f (fx0 p) (PrimFloat.sub (fx1 p) min_z) (fx2 p))) a in
  let a := fmap (M := list) (fmap (M := list)
             (λ p, Vec3f (PrimFloat.add (fx0 p) x_shift) (fx1 p) (fx2 p))) a in
  fmap (M := list) (fmap (M := list)
    (λ p, Vec3f (fx0 p) (fx1 p) (PrimFloat.add (fx2 p) y_shift))) a.

Definition place_meshes_f64 (cloth_pos : framesf)
    (obstacle_pos : option framesf) (x_shift y_shift : float)
  : result (framesf * option framesf) :=
  min_z ← floor_offset_f64 cloth_pos obstacle_pos;
  let cloth_pos := shift_f64 min_z x_shift y_shift cloth_pos in
  let obstacle_pos := shift_f64 min_z x_shift y_shift <$> obstacle_pos in
  mret (cloth_pos, obstacle_pos).

(** [a[..., :3] = f(a[..., :3])] on a 1-d float array. *)
Definition update_rgb_f (f : float → float) (color : list float) : list float :=
  (f <$> take 3 color) ++ drop 3 color.

Definition adjust_color_f64 (color : list float) : result (list float) :=
  m ← np_max_f (take 3 color);
  let color := update_rgb_f (λ c, PrimFloat.div c m) color in
  let color := update_rgb_f (λ c, PrimFloat.mul c 0.3) color in
  let color := update_rgb_f (λ c, PrimFloat.add c 0.3) color in
  mret color.

(** The minimum up-coordinate of frame 0 of a float position array. *)
Definition frame0_min_f (a : framesf) : result float :=
  c0 ← index0 a; np_min_f (up_frame_f c0).

(** ** The text of a frame file, read back

    The predicates below say what a frame file holds without reference to
    the functions that write it: they read the characters of the file. *)

(** A zero-based vertex index that fits a 32-bit integer together with its
    successor (the viewer's [Meshes] keeps faces as 32-bit integers). *)
Definition valid_index32 (z : Z) : Prop := (0 ≤ z < 2 ^ 31 - 1)%Z.
Definition valid_triple32 (t : Z * Z * Z) : Prop :=
  valid_index32 t.1.1 ∧ valid_index32 t.1.2 ∧ valid_index32 t.2.

(** Every character is a decimal digit. *)
Fixpoint all_digits (s : string) : bool :=
  match s with
  | EmptyString => true
  | String c r =>
      (48 <=? N_of_ascii c)%N && (N_of_ascii c <=? 57)%N && all_digits r
  end.

(** The integer read back from its decimal writing, with an optional minus
    sign. *)
Definition parse_Z (s : string) : option Z :=
  Z.of_int <$> NilZero.int_of_string s.

(** [s] writes [q] with six decimals: an optional minus sign, the digits of
    the integer part, a point and exactly six digits, which together read
    as the number of millionths nearest to the absolute value of [q]. *)
Definition six_decimals (q : Qc) (s : string) : Prop :=
  ∃ (sign int_part frac : string) (whole : N),
    s = sign +:+ int_part +:+ "." +:+ frac ∧
    (sign = "" ∨ sign = "-") ∧
    ((q < 0)%Qc → sign = "-") ∧ ((0 < q)%Qc → sign = "") ∧
    int_part ≠ "" ∧ parse_N int_part = Some whole ∧
    String.length frac = 6%nat ∧ all_digits frac = true ∧
    let n := Z.of_N (whole * 1000000 + digits_value 0 frac) in
    (inject_Z n - (1 # 2) <= Qabs q * inject_Z 1000000)%Q ∧
    (Qabs q * inject_Z 1000000 <= inject_Z n + (1 # 2))%Q.

(** A vertex record for [v]: the letter v and the three coordinates of [v],
    each with six decimals, separated by single spaces. *)
Definition vertex_record_ok (v : vec3) (l : string) : Prop :=
  ∃ s0 s1 s2 : string,
    l = "v " +:+ s0 +:+ " " +:+ s1 +:+ " " +:+ s2 ∧
    six_decimals (ax0 v) s0 ∧ six_decimals (ax1 v) s1 ∧
    six_decimals (ax2 v) s2.

(** A face record for a row of zero-based indices: the letter f and three
    integers, which read back as the indices plus one. *)
Definition face_record_ok (t : Z * Z * Z) (l : string) : Prop :=
  ∃ sa sb sc : string,
    l = "f " +:+ sa +:+ " " +:+ sb +:+ " " +:+ sc ∧
    parse_Z sa = Some (t.1.1 + 1)%Z ∧ parse_Z sb = Some (t.1.2 + 1)%Z ∧
    parse_Z sc = Some (t.2 + 1)%Z.

(** The text of a frame file for the vertices [verts] and the faces [tris]:
    one vertex record per vertex, in order, followed by one face record per
    face, in order, each on a line of its own. *)
Definition obj_file_ok (verts : list vec3) (tris : list (Z * Z * Z))
    (text : string) : Prop :=
  ∃ vlines flines : list string,
    text = join_lines (vlines ++ flines)%list ∧
    Forall2 vertex_record_ok verts vlines ∧
    Forall2 face_record_ok tris flines ∧
    Forall (λ l, count_nl l = 0%nat) (vlines ++ flines)%list.
(** * Properties *)

Local Close Scope string_scope.

(** Closed equations between values that contain rationals: the rationals
    are compared through their canonical fractions. *)
Ltac qc_eq :=
  vm_compute;
  repeat (first [ reflexivity | apply Qc_is_canon; reflexivity | f_equal ]).

Example place_meshes_spec_test :
place_meshes [[Vec3 0 (qz 1) 0; Vec3 0 (qz 5) 0; Vec3 0 (qz 3) 0]] None 0 0
= Ok ([[Vec3 0 (qz 2) 0; Vec3 0 (qz 6) 0; Vec3 0 (qz 4) 0]], None).
Proof. vm_compute. reflexivity. Qed.

(** ** Properties of the minimum *)

Section minimum.

Lemma py_min_le_l a b : py_min a b ≤ a.
Proof.
  unfold py_min. case_decide; [by apply Qclt_le_weak | apply Qcle_refl].
Qed.

Lemma py_min_le_r a b : py_min a b ≤ b.
Proof.
  unfold py_min. case_decide; [apply Qcle_refl | by apply Qcnot_lt_le].
Qed.

Lemma py_min_cases a b : py_min a b = a ∨ py_min a b = b.
Proof. unfold py_min. case_decide; auto. Qed.

Lemma foldl_py_min_le_init r : ∀ a, foldl py_min a r ≤ a.
Proof.
  induction r as [|x r IH]; intros a; simpl; [apply Qcle_refl|].
  eapply Qcle_trans; [apply IH | apply py_min_le_l].
Qed.

Lemma foldl_py_min_lower r : ∀ a x, x ∈ r → foldl py_min a r ≤ x.
Proof.
  induction r as [|y r IH]; intros a x Hx; simpl.
  - by apply elem_of_nil in Hx.
  - apply elem_of_cons in Hx as [->|Hx]; [|by apply IH].
    eapply Qcle_trans; [apply foldl_py_min_le_init | apply py_min_le_r].
Qed.

Lemma foldl_py_min_elem r : ∀ a, foldl py_min a r = a ∨ foldl py_min a r ∈ r.
Proof.
  induction r as [|y r IH]; intros a; simpl; [by left|].
  destruct (IH (py_min a y)) as [E|E].
  - rewrite E. destruct (py_min_cases a y) as [->| ->]; [by left|].
    right. apply elem_of_cons; by left.
  - right. apply elem_of_cons; by right.
Qed.

(** The minimum is an element of the array and a lower bound of it. *)
Lemma np_min_Ok l m : np_min l = Ok m → m ∈ l ∧ ∀ x, x ∈ l → m ≤ x.
Proof.
  destruct l as [|a r]; [discriminate|]. simpl. intros [= <-]. split.
  - destruct (foldl_py_min_elem r a) as [-> | E];
      apply elem_of_cons; [by left | by right].
  - intros x [->|Hx]%elem_of_cons;
      [apply foldl_py_min_le_init | by apply foldl_py_min_lower].
Qed.

(** Conversely, a lower bound that is an element is the minimum. *)
Lemma np_min_intro l m : m ∈ l → (∀ x, x ∈ l → m ≤ x) → np_min l = Ok m.
Proof.
  intros Hin Hlow. destruct l as [|a r]; [by apply elem_of_nil in Hin|].
  destruct (np_min_Ok (a :: r) (foldl py_min a r) eq_refl) as [Hin' Hlow'].
  simpl. f_equal. apply Qcle_antisym; [by apply Hlow' | by apply Hlow].
Qed.

Lemma np_min_nonempty l : l ≠ [] → ∃ m, np_min l = Ok m.
Proof. destruct l; [done | by eexists]. Qed.

(** Subtracting a constant from every entry shifts the minimum. *)
Lemma np_min_shift l m c :
  np_min l = Ok m → np_min ((λ x, x - c) <$> l) = Ok (m - c).
Proof.
  intros [Hin Hlow]%np_min_Ok. apply np_min_intro.
  - apply list_elem_of_fmap. eauto.
  - intros x (y & -> & Hy)%list_elem_of_fmap.
    unfold Qcminus. apply Qcplus_le_mono_r. by apply Hlow.
Qed.

End minimum.

(** ** [place_meshes] *)

Section placement.

Implicit Types (a cloth obs rest : frames) (c : Qc).

Lemma vertex_at_fmap (g : vec3 → vec3) a t v :
  vertex_at (fmap (M := list) (fmap (M := list) g) a) t v = g <$> vertex_at a t v.
Proof.
  unfold vertex_at. rewrite list_lookup_fmap.
  destruct (a !! t) as [f|]; simpl; [|done]. by rewrite list_lookup_fmap.
Qed.

(** What the three in-place updates do to a single vertex. *)
Lemma vertex_at_placed min_z xs ys a t v :
  vertex_at (add_ax2 ys (add_ax0 xs (sub_ax1 min_z a))) t v
  = (λ p, Vec3 (ax0 p + xs) (ax1 p - min_z) (ax2 p + ys)) <$> vertex_at a t v.
Proof.
  unfold add_ax2, add_ax0, sub_ax1. rewrite !vertex_at_fmap.
  by destruct (vertex_at a t v).
Qed.

Lemma up_frame_placed min_z xs ys (f : list vec3) :
  up_frame ((λ p, Vec3 (ax0 p) (ax1 p) (ax2 p + ys)) <$>
            ((λ p, Vec3 (ax0 p + xs) (ax1 p) (ax2 p)) <$>
             ((λ p, Vec3 (ax0 p) (ax1 p - min_z) (ax2 p)) <$> f)))
  = (λ y, y - min_z) <$> up_frame f.
Proof.
  unfold up_frame. rewrite <-!list_fmap_compose. by apply list_fmap_ext.
Qed.

Lemma up_all_placed min_z xs ys a :
  up_all (add_ax2 ys (add_ax0 xs (sub_ax1 min_z a)))
  = (λ y, y - min_z) <$> up_all a.
Proof.
  unfold up_all, add_ax2, add_ax0, sub_ax1.
  induction a as [|f a IH]; [done|].
  rewrite !fmap_cons. cbn [concat]. rewrite !fmap_app, IH. f_equal.
  apply (up_frame_placed min_z xs ys f).
Qed.

Lemma placed_cons min_z xs ys (f : list vec3) a :
  add_ax2 ys (add_ax0 xs (sub_ax1 min_z (f :: a)))
  = ((λ p, Vec3 (ax0 p) (ax1 p) (ax2 p + ys)) <$>
     ((λ p, Vec3 (ax0 p + xs) (ax1 p) (ax2 p)) <$>
      ((λ p, Vec3 (ax0 p) (ax1 p - min_z) (ax2 p)) <$> f)))
    :: add_ax2 ys (add_ax0 xs (sub_ax1 min_z a)).
Proof. reflexivity. Qed.

Lemma Qcminus_diag c : c - c = 0.
Proof. ring. Qed.

Lemma Qcminus_margin c : c - (c - 2) = 2.
Proof. ring. Qed.

End placement.

(** ** The same steps in binary64 *)

Section binary64.

Lemma np_minimum_f_cases (a b : float) :
  np_minimum_f a b = a ∨ np_minimum_f a b = b.
Proof.
  unfold np_minimum_f.
  destruct (PrimFloat.is_nan a), (PrimFloat.is_nan b), (PrimFloat.ltb b a);
    auto.
Qed.

Lemma np_maximum_f_cases (a b : float) :
  np_maximum_f a b = a ∨ np_maximum_f a b = b.
Proof.
  unfold np_maximum_f.
  destruct (PrimFloat.is_nan a), (PrimFloat.is_nan b), (PrimFloat.ltb a b);
    auto.
Qed.

Lemma foldl_np_minimum_f_elem (r : list float) :
  ∀ x, foldl np_minimum_f x r ∈ x :: r.
Proof.
  induction r as [|y r IH]; intros x; simpl; [apply list_elem_of_here|].
  destruct (np_minimum_f_cases x y) as [-> | ->].
  - pose proof (IH x) as [-> | H]%elem_of_cons.
    + apply list_elem_of_here.
    + by do 2 apply list_elem_of_further.
  - apply list_elem_of_further, IH.
Qed.

(** The minimum of a float array is one of its entries. *)
Lemma np_min_f_elem (l : list float) (m : float) : np_min_f l = Ok m → m ∈ l.
Proof.
  destruct l as [|x r]; [done|]. simpl. intros [= <-].
  apply foldl_np_minimum_f_elem.
Qed.

Lemma shift_f64_cons (min_z xs ys : float) (f : list vec3f) (a : framesf) :
  shift_f64 min_z xs ys (f :: a)
  = ((λ p, Vec3f (fx0 p) (fx1 p) (PrimFloat.add (fx2 p) ys)) <$>
     ((λ p, Vec3f (PrimFloat.add (fx0 p) xs) (fx1 p) (fx2 p)) <$>
      ((λ p, Vec3f (fx0 p) (PrimFloat.sub (fx1 p) min_z) (fx2 p)) <$> f)))
    :: shift_f64 min_z xs ys a.
Proof. reflexivity. Qed.

Lemma up_frame_f_shift (min_z xs ys : float) (f : list vec3f) :
  up_frame_f
    ((λ p, Vec3f (fx0 p) (fx1 p) (PrimFloat.add (fx2 p) ys)) <$>
     ((λ p, Vec3f (PrimFloat.add (fx0 p) xs) (fx1 p) (fx2 p)) <$>
      ((λ p, Vec3f (fx0 p) (PrimFloat.sub (fx1 p) min_z) (fx2 p)) <$> f)))
  = (λ y, PrimFloat.sub y min_z) <$> up_frame_f f.
Proof.
  unfold up_frame_f. rewrite <-!list_fmap_compose. by apply list_fmap_ext.
Qed.

(** Cloth-only placement in binary64: the floor offset is an entry of the
    heights of frame 0 minus 2, and it is subtracted from every height of
    frame 0, each subtraction being rounded. *)
Lemma place_meshes_f64_cloth_only (f0 : list vec3f) (rest : framesf)
    (xs ys : float) :
  f0 ≠ [] →
  ∃ m f0' rest',
    m ∈ up_frame_f f0 ∧
    floor_offset_f64 (f0 :: rest) None = Ok (PrimFloat.sub m 2) ∧
    place_meshes_f64 (f0 :: rest) None xs ys = Ok (f0' :: rest', None) ∧
    up_frame_f f0'
    = (λ y, PrimFloat.sub y (PrimFloat.sub m 2)) <$> up_frame_f f0.
Proof.
  intros Hne.
  destruct (np_min_f (up_frame_f f0)) as [m|e] eqn:Hm;
    [|destruct f0; [done | discriminate]].
  assert (Hfl : floor_offset_f64 (f0 :: rest) None = Ok (PrimFloat.sub m 2)).
  { unfold floor_offset_f64. simpl. by rewrite Hm. }
  eexists m, _, _. split_and!.
  - by apply np_min_f_elem.
  - exact Hfl.
  - unfold place_meshes_f64. rewrite Hfl. simpl. rewrite shift_f64_cons.
    reflexivity.
  - apply up_frame_f_shift.
Qed.

(** [adjust_color] in binary64: the divisor is one of the three channels. *)
Lemma adjust_color_f64_rgba (r g b a : float) :
  ∃ m, (m = r ∨ m = g ∨ m = b) ∧
       adjust_color_f64 [r; g; b; a]
       = Ok [PrimFloat.add (PrimFloat.mul (PrimFloat.div r m) 0.3) 0.3;
             PrimFloat.add (PrimFloat.mul (PrimFloat.div g m) 0.3) 0.3;
             PrimFloat.add (PrimFloat.mul (PrimFloat.div b m) 0.3) 0.3; a].
Proof.
  exists (np_maximum_f (np_maximum_f r g) b). split; [|reflexivity].
  destruct (np_maximum_f_cases (np_maximum_f r g) b) as [-> | ->]; [|auto].
  destruct (np_maximum_f_cases r g) as [-> | ->]; auto.
Qed.

End binary64.






(** ** [adjust_color] *)

Example adjust_color_244 :
  adjust_color [Fin (qz 2); Fin (qz 4); Fin (qz 4); Fin 1]
  = Ok [Fin (qfrac 9 20); Fin (qfrac 3 5); Fin (qfrac 3 5); Fin 1].
Proof. qc_eq. Qed.

Example adjust_color_000 :
  adjust_color [Fin 0; Fin 0; Fin 0; Fin 1] = Ok [NaN; NaN; NaN; Fin 1].
Proof. qc_eq. Qed.

Section colour.

Implicit Types (r g b x m : Qc) (a : fnum).

Lemma adjust_color_rgba (r g b a : fnum) :
  adjust_color (rgba r g b a)
  = Ok (rgba (fadd (fmul (fdiv r (fmax (fmax r g) b)) c03) c03)
             (fadd (fmul (fdiv g (fmax (fmax r g) b)) c03) c03)
             (fadd (fmul (fdiv b (fmax (fmax r g) b)) c03) c03)
             a).
Proof. reflexivity. Qed.

(** The maximum of three finite channels is finite, bounds each of them
    and is one of them. *)
Lemma fmax3_finite r g b :
  ∃ m, fmax (fmax (Fin r) (Fin g)) (Fin b) = Fin m ∧
       r ≤ m ∧ g ≤ m ∧ b ≤ m ∧ (m = r ∨ m = g ∨ m = b).
Proof.
  simpl. destruct (decide (r < g)) as [Hrg|Hrg]; simpl.
  - destruct (decide (g < b)) as [Hgb|Hgb]; eexists; (split; [done|]).
    + split_and!; auto using Qcle_refl, Qclt_le_weak.
      apply Qclt_le_weak. by eapply Qclt_trans.
    + split_and!; auto using Qcle_refl, Qclt_le_weak, Qcnot_lt_le.
  - destruct (decide (r < b)) as [Hrb|Hrb]; eexists; (split; [done|]).
    + split_and!; auto using Qcle_refl, Qclt_le_weak.
      eapply Qcle_trans; [by apply Qcnot_lt_le | by apply Qclt_le_weak].
    + split_and!; auto using Qcle_refl, Qclt_le_weak, Qcnot_lt_le.
Qed.

Lemma fmax3_positive r g b m :
  0 ≤ r → 0 ≤ g → 0 ≤ b → ¬ (r = 0 ∧ g = 0 ∧ b = 0) →
  r ≤ m → g ≤ m → b ≤ m → 0 < m.
Proof.
  intros Hr Hg Hb Hnz Hrm Hgm Hbm.
  destruct (Qcle_lt_or_eq _ _ Hr) as [?| <-];
    [by eapply Qclt_le_trans|].
  destruct (Qcle_lt_or_eq _ _ Hg) as [?| <-];
    [by eapply Qclt_le_trans|].
  destruct (Qcle_lt_or_eq _ _ Hb) as [?| <-];
    [by eapply Qclt_le_trans|].
  by destruct Hnz.
Qed.

Lemma adjust_channel_finite x m :
  m ≠ 0 → fadd (fmul (fdiv (Fin x) (Fin m)) c03) c03 = Fin (muted x m).
Proof. intros Hm. simpl. by rewrite decide_False. Qed.

Lemma q03_double : qfrac 3 10 + qfrac 3 10 = qfrac 6 10.
Proof. by apply Qc_is_canon. Qed.

Lemma q03_nonneg : 0 ≤ qfrac 3 10.
Proof. by vm_compute. Qed.

Lemma muted_bounds x m :
  0 ≤ x → x ≤ m → 0 < m → qfrac 3 10 ≤ muted x m ∧ muted x m ≤ qfrac 6 10.
Proof.
  intros Hx Hxm Hm. unfold muted, Qcdiv.
  assert (Hinv : 0 ≤ / m) by (apply Qclt_le_weak; by apply Qcinv_pos).
  assert (H0 : 0 ≤ x * / m) by (by apply Qcmult_nonneg_nonneg).
  assert (H1 : x * / m ≤ 1).
  { rewrite <-(Qcmult_inv_r m) by (by apply not_eq_sym, Qclt_not_eq).
    by apply Qcmult_le_mono_nonneg_r. }
  split.
  - rewrite <-(Qcplus_0_l (qfrac 3 10)) at 1. apply Qcplus_le_mono_r.
    apply Qcmult_nonneg_nonneg; [done | apply q03_nonneg].
  - rewrite <-q03_double. apply Qcplus_le_mono_r.
    rewrite <-(Qcmult_1_l (qfrac 3 10)) at 2.
    apply Qcmult_le_mono_nonneg_r; [apply q03_nonneg | done].
Qed.

End colour.

(** C3 (as stated, refuted).  On [(0, 0, 0, 1.0)] the code raises nothing:
    it returns a colour whose first three channels are NaN, whereas the
    fail-fast reading of the spec rejects the input. *)
Lemma adjust_color_zero_rgb_returns_nan :
  adjust_color (rgba (Fin 0) (Fin 0) (Fin 0) (Fin 1))
    = Ok (rgba NaN NaN NaN (Fin 1)) ∧
  has_nan (rgba NaN NaN NaN (Fin 1)) ∧
  (¬ ∃ e, adjust_color (rgba (Fin 0) (Fin 0) (Fin 0) (Fin 1)) = Err e) ∧
  adjust_color (rgba (Fin 0) (Fin 0) (Fin 0) (Fin 1))
    ≠ adjust_color_fail_fast (rgba (Fin 0) (Fin 0) (Fin 0) (Fin 1)).
Proof.
  split_and!.
  - reflexivity.
  - apply list_elem_of_here.
  - intros [e He]. discriminate He.
  - discriminate.
Qed.

(** C3 (amended).  For every colour whose first three channels are zero,
    whatever follows them, [adjust_color] raises no error and returns the
    colour with those three channels NaN and the other entries unchanged. *)
Theorem adjust_color_zero_rgb (rest : list fnum) :
  adjust_color (Fin 0 :: Fin 0 :: Fin 0 :: rest)
  = Ok (NaN :: NaN :: NaN :: rest).
Proof. unfold adjust_color, update_rgb. simpl. by rewrite !drop_0. Qed.

(** C4 (as stated, refuted).  On [(2, 4, 4, 1.0)] the code, which computes
    in binary64, returns [0.44999999999999996] as first channel: the
    rounded product [0.5 * 0.3] plus [0.3] is the double just below the
    double written [0.45]. *)
Lemma adjust_color_244_rounds :
  ∃ r' : float,
    adjust_color_f64 [2; 4; 4; 1]%float = Ok [r'; 0.6; 0.6; 1]%float ∧
    r' = 0.44999999999999996%float ∧
    PrimFloat.eqb r' 0.45 = false ∧ PrimFloat.ltb r' 0.45 = true.
Proof.
  exists 0.44999999999999996%float. split_and!; vm_compute; reflexivity.
Qed.

(** C4 (amended).  [adjust_color] divides each of the first three channels
    by their maximum [m] (one of the three channels, and no smaller than any
    of them), multiplies it by 0.3 and adds 0.3, and returns the alpha
    channel as it was.  On [(2, 4, 4, 1.0)] the result is
    [(9/20, 3/5, 3/5, 1)] when the three operations are exact; in binary64
    the code takes the same three steps, each of them rounded, and the
    result is [(0.44999999999999996, 0.6, 0.6, 1.0)]. *)
Theorem adjust_color_formula :
  (∀ (r g b : Qc) (a : fnum),
      ∃ m, (m = r ∨ m = g ∨ m = b) ∧ r ≤ m ∧ g ≤ m ∧ b ≤ m ∧
           (m ≠ 0 →
            adjust_color (rgba (Fin r) (Fin g) (Fin b) a)
            = Ok (rgba (Fin (r / m * qfrac 3 10 + qfrac 3 10))
                       (Fin (g / m * qfrac 3 10 + qfrac 3 10))
                       (Fin (b / m * qfrac 3 10 + qfrac 3 10)) a))) ∧
  adjust_color (rgba (Fin (qz 2)) (Fin (qz 4)) (Fin (qz 4)) (Fin 1))
  = Ok (rgba (Fin (qfrac 9 20)) (Fin (qfrac 3 5)) (Fin (qfrac 3 5)) (Fin 1)) ∧
  (∀ r g b a : float,
      ∃ m, (m = r ∨ m = g ∨ m = b) ∧
           adjust_color_f64 [r; g; b; a]
           = Ok [PrimFloat.add (PrimFloat.mul (PrimFloat.div r m) 0.3) 0.3;
                 PrimFloat.add (PrimFloat.mul (PrimFloat.div g m) 0.3) 0.3;
                 PrimFloat.add (PrimFloat.mul (PrimFloat.div b m) 0.3) 0.3;
                 a]) ∧
  adjust_color_f64 [2; 4; 4; 1]%float
  = Ok [0.44999999999999996; 0.6; 0.6; 1]%float.
Proof.
  split_and!.
  - intros r g b a.
    destruct (fmax3_finite r g b) as (m & Hm & Hr & Hg & Hb & Hcase).
    exists m. split_and!; try done.
    intros Hm0. rewrite adjust_color_rgba, Hm.
    by rewrite !adjust_channel_finite.
  - qc_eq.
  - apply adjust_color_f64_rgba.
  - vm_compute. reflexivity.
Qed.

(** C5.  For finite, non-negative first three channels that are not all
    zero, [adjust_color] succeeds and each of the first three channels of
    its result lies in [[0.3, 0.6]]; alpha is unchanged. *)
Theorem adjust_color_range (r g b : Qc) (a : fnum) :
  0 ≤ r → 0 ≤ g → 0 ≤ b → ¬ (r = 0 ∧ g = 0 ∧ b = 0) →
  ∃ r' g' b',
    adjust_color (rgba (Fin r) (Fin g) (Fin b) a)
      = Ok (rgba (Fin r') (Fin g') (Fin b') a) ∧
    (qfrac 3 10 ≤ r' ∧ r' ≤ qfrac 6 10) ∧
    (qfrac 3 10 ≤ g' ∧ g' ≤ qfrac 6 10) ∧
    (qfrac 3 10 ≤ b' ∧ b' ≤ qfrac 6 10).
Proof.
  intros Hr Hg Hb Hnz.
  destruct (fmax3_finite r g b) as (m & Hm & Hrm & Hgm & Hbm & _).
  assert (Hpos : 0 < m) by (by apply (fmax3_positive r g b m)).
  assert (Hm0 : m ≠ 0) by (by apply not_eq_sym, Qclt_not_eq).
  exists (muted r m), (muted g m), (muted b m).
  split; [|split_and!; by apply muted_bounds].
  rewrite adjust_color_rgba, Hm. by rewrite !adjust_channel_finite.
Qed.

Lemma adjust_color_range_witness :
  ∃ r' g' b',
    adjust_color (rgba (Fin (qz 2)) (Fin (qz 4)) (Fin 0) (Fin 1))
      = Ok (rgba (Fin r') (Fin g') (Fin b') (Fin 1)) ∧
    (qfrac 3 10 ≤ r' ∧ r' ≤ qfrac 6 10) ∧
    (qfrac 3 10 ≤ g' ∧ g' ≤ qfrac 6 10) ∧
    (qfrac 3 10 ≤ b' ∧ b' ≤ qfrac 6 10).
Proof.
  apply (adjust_color_range (qz 2) (qz 4) 0 (Fin 1)).
  - by vm_compute.
  - by vm_compute.
  - by vm_compute.
  - intros (H & _ & _). vm_compute in H. discriminate H.
Defined.

(** C9.  [adjust_color] is not idempotent: for the colour [(2, 4, 4, 1.0)],
    whose first three channels are non-negative and not all zero, adjusting
    the adjusted colour changes it again. *)
Theorem adjust_color_not_idempotent :
  ∃ (r g b : Qc) (a : fnum) (c1 c2 : list fnum),
    (0 ≤ r ∧ 0 ≤ g ∧ 0 ≤ b) ∧ ¬ (r = 0 ∧ g = 0 ∧ b = 0) ∧
    adjust_color (rgba (Fin r) (Fin g) (Fin b) a) = Ok c1 ∧
    adjust_color c1 = Ok c2 ∧
    c2 ≠ c1.
Proof.
  exists (qz 2), (qz 4), (qz 4), (Fin 1).
  exists (rgba (Fin (qfrac 45 100)) (Fin (qfrac 6 10)) (Fin (qfrac 6 10)) (Fin 1)).
  exists (rgba (Fin (qfrac 525 1000)) (Fin (qfrac 6 10)) (Fin (qfrac 6 10)) (Fin 1)).
  split; [repeat split; by vm_compute|].
  split; [intros (H & _ & _); vm_compute in H; discriminate H|].
  split; [qc_eq|]. split; [qc_eq|].
  intros H. vm_compute in H. discriminate H.
Qed.

(** ** Formatting *)

Example fmt_04_7 : fmt_04 7 = "0007"%string.
Proof. reflexivity. Qed.

Example fmt_04_wide : fmt_04 (100 * 100) = "10000"%string.
Proof. reflexivity. Qed.

Example fmt_6f_third : fmt_6f (qfrac 1 3) = "0.333333"%string.
Proof. reflexivity. Qed.

Example fmt_6f_tie : fmt_6f (qfrac 1 128) = "0.007812"%string.
Proof. reflexivity. Qed.

Example fmt_6f_neg : fmt_6f (qfrac (-5) 2) = "-2.500000"%string.
Proof. reflexivity. Qed.

Example fmt_6f_large : fmt_6f (qfrac 123456789 1000) = "123456.789000"%string.
Proof. reflexivity. Qed.

Example fmt_6f_small : fmt_6f (qfrac 1 1000) = "0.001000"%string.
Proof. reflexivity. Qed.

Example fmt_6f_neg_tiny : fmt_6f (qfrac (-1) 1000000000) = "-0.000000"%string.
Proof. reflexivity. Qed.

Example face_line_012 :
  face_line (I1 [0; 1; 2]%Z)
  = Ok ("f 1 2 3" +:+ newline)%string.
Proof. reflexivity. Qed.

Example frame_path_out : frame_path "out/0/" "frame" 3 = "out/0/frame_0003.obj"%string.
Proof. reflexivity. Qed.

(** ** [add_seq] *)

(** [place_meshes] returns an obstacle exactly when it is given one. *)
Lemma place_meshes_keeps_obstacle cloth obs xs ys cloth' obs' :
  place_meshes cloth obs xs ys = Ok (cloth', obs') →
  is_Some obs ↔ is_Some obs'.
Proof.
  unfold place_meshes. destruct (floor_offset cloth obs); simpl; [|done].
  intros [= <- <-]. destruct obs; split; intros [? ?]; by eauto.
Qed.

Lemma place_meshes_no_obstacle cloth xs ys cloth' o :
  place_meshes cloth None xs ys = Ok (cloth', Some o) → False.
Proof.
  intros H%place_meshes_keeps_obstacle. destruct H as [_ H].
  destruct H as [? ?]; [by eauto | done].
Qed.

Lemma place_meshes_some_obstacle cloth obs xs ys cloth' :
  place_meshes cloth (Some obs) xs ys = Ok (cloth', None) → False.
Proof.
  intros H%place_meshes_keeps_obstacle. destruct H as [H _].
  destruct H as [? ?]; [by eauto | done].
Qed.

(** Case analysis along a chain of fallible steps. *)
Ltac run_result :=
  repeat (unfold mret, result_ret; simpl;
    match goal with
    | |- context [decide ?P] => destruct (decide P)
    | |- context [match ?x with Some _ => _ | None => _ end] =>
        destruct x as [?|] eqn:?
    | |- context [match ?x with (_, _) => _ end] => destruct x as [? ?]
    | |- context [match ?x with Ok _ => _ | Err _ => _ end] =>
        destruct x as [?|?] eqn:?
    | |- context [mbind _ ?x] =>
        lazymatch x with
        | mbind _ _ => fail
        | _ => destruct x as [?|?] eqn:?
        end
    end); unfold mret, result_ret; simpl; try done.

Section sequence_builder.

Context (x_shift y_shift : Qc) (cloth_color : option (list fnum))
  (name : option string) (obstacle_opacity cloth_opacity : fnum).

Abbreviation build d :=
  (add_seq d x_shift y_shift cloth_color name obstacle_opacity cloth_opacity).

(** [add_seq] reads the rollout through four keys only. *)
Lemma add_seq_ext (d d' : gmap string value) :
  d' !! "cloth_faces" = d !! "cloth_faces" →
  d' !! "obstacle_faces" = d !! "obstacle_faces" →
  (is_Some (d !! "obstacle_faces") → d' !! "obstacle" = d !! "obstacle") →
  d' !! "pred" = d !! "pred" →
  build d' = build d.
Proof.
  intros Hcf Hof Ho Hp. unfold add_seq, dict_get. rewrite Hcf, Hof, Hp.
  destruct (d !! "obstacle_faces") as [ofv|] eqn:E; [|done].
  by rewrite Ho.
Qed.

(** C8.  When the cloth face array is per-frame (and the obstacle face
    array too, if there is an obstacle), [add_seq] builds its meshes from
    frame 0 of the faces only: replacing the faces of all later frames by
    anything else leaves the result unchanged, and the meshes built carry
    the faces of frame 0. *)
Theorem add_seq_frame0_topology (d : gmap string value)
    (cf0 : list (list Z)) (cl : list (list (list Z))) :
  d !! "cloth_faces" = Some (VInt (I3 (cf0 :: cl))) →
  (∀ cl', build (<["cloth_faces" := VInt (I3 (cf0 :: cl'))]> d) = build d) ∧
  (∀ of0 ol ol' cl',
      d !! "obstacle_faces" = Some (VInt (I3 (of0 :: ol))) →
      build (<["obstacle_faces" := VInt (I3 (of0 :: ol'))]>
               (<["cloth_faces" := VInt (I3 (cf0 :: cl'))]> d)) = build d) ∧
  (∀ out, build d = Ok out →
      ∃ mc rest, out = mc :: rest ∧ faces mc = I2 cf0 ∧
        (d !! "obstacle_faces" = None → rest = []) ∧
        (∀ of0 ol, d !! "obstacle_faces" = Some (VInt (I3 (of0 :: ol))) →
                   ∃ mo, rest = [mo] ∧ faces mo = I2 of0)).
Proof.
  intros Hcf. split_and!.
  - intros cl'. unfold add_seq, dict_get.
    rewrite lookup_insert_eq, !lookup_insert_ne, Hcf by done.
    destruct (d !! "obstacle_faces") as [ofv|]; [|done].
    simpl. by destruct (d !! "obstacle").
  - intros of0 ol ol' cl' Hof. unfold add_seq, dict_get.
    rewrite lookup_insert_eq, !lookup_insert_ne, lookup_insert_eq by done.
    rewrite ?lookup_insert_ne, Hcf, Hof by done.
    simpl. by destruct (d !! "obstacle").
  - intros out. unfold add_seq, dict_get. rewrite Hcf.
    destruct (d !! "obstacle_faces") as [ofv|] eqn:Hof; simpl.
    + destruct (d !! "obstacle") as [opv|]; simpl; [|done].
      destruct (as_int ofv) as [ofa|] eqn:Hofa; simpl; [|done].
      destruct (getitem ofa 0) as [of0'|] eqn:Hget; simpl; [|done].
      destruct (d !! "pred") as [pv|]; simpl; [|done].
      destruct (as_float pv) as [pos|]; simpl; [|done].
      destruct (as_float opv) as [opos|]; simpl; [|done].
      destruct (place_meshes _ _ _ _) as [[pos' [opos'|]]|] eqn:Hpl;
        simpl; try done.
      * destruct (adjust_color _); simpl; [|done].
        intros [= <-]. eexists _, _. split_and!; [done..|].
        intros of0 ol [= ->]. simpl in Hofa. injection Hofa as <-.
        simpl in Hget. injection Hget as <-. by eexists.
      * unfold place_meshes in Hpl.
        destruct (floor_offset _ _); simpl in Hpl; discriminate.
    + destruct (d !! "pred") as [pv|]; simpl; [|done].
      destruct (as_float pv) as [pos|]; simpl; [|done].
      destruct (place_meshes _ _ _ _) as [[pos' opos']|]; simpl; [|done].
      destruct (adjust_color _); simpl; [|done].
      destruct opos'; intros [= <-]; eexists _, _; split_and!; done.
Qed.

(** C10.  [add_seq] treats the obstacle as present exactly when the key
    ['obstacle_faces'] exists.  Without that key the entry ['obstacle'] is
    never read: the rollout is built as if it were deleted, and a
    successful build returns the cloth mesh alone.  With that key and
    without ['obstacle'] the build fails with a [KeyError] (for ['obstacle'],
    unless ['cloth_faces'] is missing too and is reported first).  With that
    key, a successful build returns two meshes. *)
Theorem add_seq_obstacle_key (d : gmap string value) :
  (d !! "obstacle_faces" = None →
     build d = build (delete "obstacle" d) ∧
     ∀ out, build d = Ok out → length out = 1%nat) ∧
  (is_Some (d !! "obstacle_faces") → d !! "obstacle" = None →
     build d = Err (KeyError (if decide (is_Some (d !! "cloth_faces"))
                              then "obstacle" else "cloth_faces"))) ∧
  (is_Some (d !! "obstacle_faces") →
     ∀ out, build d = Ok out → length out = 2%nat).
Proof.
  split_and!.
  - intros Hof. split.
    + symmetry. apply add_seq_ext.
      * by rewrite lookup_delete_ne.
      * by rewrite lookup_delete_ne.
      * rewrite Hof. by intros [? ?].
      * by rewrite lookup_delete_ne.
    + intros out. unfold add_seq, dict_get. rewrite Hof. simpl.
      destruct (d !! "cloth_faces") as [cfv|]; [|done].
      destruct (d !! "pred") as [pv|]; run_result.
      all: try (intros [= <-]; done).
      all: try (exfalso; by eapply place_meshes_no_obstacle).
  - intros [ofv Hof] Ho. unfold add_seq, dict_get. rewrite Hof, Ho.
    by destruct (d !! "cloth_faces") as [cfv|].
  - intros [ofv Hof] out. unfold add_seq, dict_get. rewrite Hof.
    destruct (d !! "cloth_faces") as [cfv|]; [|done].
    destruct (d !! "obstacle") as [opv|]; [|done].
    destruct (d !! "pred") as [pv|]; run_result.
    all: try (intros [= <-]; done).
    all: try (exfalso; by eapply place_meshes_some_obstacle).
Qed.

End sequence_builder.



Lemma demo_rollout_cloth_faces :
  demo_rollout !! "cloth_faces" = Some (VInt (I3 [[[0; 1; 2]]; [[2; 1; 0]]]%Z)).
Proof. vm_compute. reflexivity. Defined.

Lemma demo_rollout_obstacle_faces : demo_rollout !! "obstacle_faces" = None.
Proof. vm_compute. reflexivity. Defined.

Lemma add_seq_frame0_topology_witness :
  demo_rollout !! "cloth_faces" = Some (VInt (I3 [[[0; 1; 2]]; [[2; 1; 0]]]%Z)) ∧
  add_seq (<["cloth_faces" := VInt (I3 [[[0; 1; 2]]; [[7; 7; 7]]; [[8; 8; 8]]]%Z)]>
             demo_rollout) 0 0 None None (Fin 1) (Fin 1)
  = add_seq demo_rollout 0 0 None None (Fin 1) (Fin 1).
Proof.
  split; [exact demo_rollout_cloth_faces|].
  exact (proj1 (add_seq_frame0_topology 0 0 None None (Fin 1) (Fin 1)
                  demo_rollout [[0; 1; 2]]%Z [[[2; 1; 0]]]%Z
                  demo_rollout_cloth_faces) _).
Defined.

Lemma add_seq_obstacle_key_witness :
  demo_rollout !! "obstacle_faces" = None ∧
  add_seq demo_rollout 0 0 None None (Fin 1) (Fin 1)
  = add_seq (delete "obstacle" demo_rollout) 0 0 None None (Fin 1) (Fin 1).
Proof.
  split; [exact demo_rollout_obstacle_faces|].
  exact (proj1 (proj1 (add_seq_obstacle_key 0 0 None None (Fin 1) (Fin 1)
                         demo_rollout) demo_rollout_obstacle_faces)).
Defined.

Example add_seq_faces_without_positions :
  add_seq (<["obstacle_faces" := VInt (I2 [[0; 1; 2]]%Z)]>
             (delete "obstacle" demo_rollout)) 0 0 None None (Fin 1) (Fin 1)
  = Err (KeyError "obstacle").
Proof. vm_compute. reflexivity. Qed.

(** The demonstration rollout, whose cloth faces are given per frame and
    which has no obstacle faces, builds one mesh with the faces of frame 0. *)
Example add_seq_demo_rollout :
  match add_seq demo_rollout 0 0 None None (Fin 1) (Fin 1) with
  | Ok [mc] =>
      faces mc = I2 [[0; 1; 2]]%Z ∧ name mc = "None_cloth"%string ∧
      length (vertices mc) = 2%nat
  | _ => False
  end.
Proof. vm_compute. split_and!; reflexivity. Qed.

(** ** Strings *)

Section strings.

Local Open Scope string_scope.
Local Arguments String.append _ _ : simpl nomatch.
Implicit Types (s t u : string).

Lemma app_assoc_s s t u : (s +:+ t) +:+ u = s +:+ (t +:+ u).
Proof. induction s as [|c s IH]; simpl; [done | congruence]. Qed.

Lemma app_empty_r s : s +:+ "" = s.
Proof. induction s as [|c s IH]; simpl; [done | congruence]. Qed.

Lemma length_app_s s t :
  String.length (s +:+ t) = (String.length s + String.length t)%nat.
Proof. induction s as [|c s IH]; simpl; [done | congruence]. Qed.

(** Cancellation of a common suffix. *)
Lemma app_inj_suffix s1 s2 t : s1 +:+ t = s2 +:+ t → s1 = s2.
Proof.
  revert s2. induction s1 as [|c s1 IH]; intros [|c2 s2] H; simpl in *.
  - done.
  - apply (f_equal String.length) in H. simpl in H.
    rewrite length_app_s in H. lia.
  - apply (f_equal String.length) in H. simpl in H.
    rewrite length_app_s in H. lia.
  - injection H as -> H. f_equal. by apply IH.
Qed.

Lemma count_nl_app s t : count_nl (s +:+ t) = (count_nl s + count_nl t)%nat.
Proof. induction s as [|c s IH]; simpl; [done | lia]. Qed.

Lemma count_nl_newline : count_nl newline = 1%nat.
Proof. reflexivity. Qed.

(** *** Decimal digits *)

Lemma N_to_uint_nonnil (n : N) : N.to_uint n ≠ Decimal.Nil.
Proof.
  destruct n as [|p]; [discriminate|]. apply DecimalPos.Unsigned.to_uint_nonnil.
Qed.

Lemma str_N_digits (n : N) : str_N n = NilEmpty.string_of_uint (N.to_uint n).
Proof.
  unfold str_N, NilZero.string_of_uint.
  pose proof (N_to_uint_nonnil n). by destruct (N.to_uint n).
Qed.

Lemma zeros_digits (k : nat) (d : Decimal.uint) :
  zeros k +:+ NilEmpty.string_of_uint d
  = NilEmpty.string_of_uint (Nat.iter k Decimal.D0 d).
Proof. induction k as [|k IH]; simpl; [done | by rewrite IH]. Qed.

Lemma of_uint_iter_D0 (k : nat) (d : Decimal.uint) :
  N.of_uint (Nat.iter k Decimal.D0 d) = N.of_uint d.
Proof.
  rewrite <-DecimalN.Unsigned.of_uint_norm, unorm_iter_D0.
  apply DecimalN.Unsigned.of_uint_norm.
Qed.

(** A zero-padded number reads back as the number. *)
Lemma parse_zero_pad (w : nat) (n : N) : parse_N (zero_pad w (str_N n)) = Some n.
Proof.
  unfold parse_N, zero_pad. rewrite str_N_digits, zeros_digits.
  rewrite NilEmpty.usu. simpl.
  by rewrite of_uint_iter_D0, DecimalN.Unsigned.of_to.
Qed.

Lemma parse_fmt_04 (i : nat) : parse_N (fmt_04 i) = Some (N.of_nat i).
Proof. apply parse_zero_pad. Qed.

Lemma fmt_04_inj (i j : nat) : fmt_04 i = fmt_04 j → i = j.
Proof.
  intros H. apply (f_equal parse_N) in H. rewrite !parse_fmt_04 in H.
  injection H as H. by apply Nat2N.inj.
Qed.

Lemma count_nl_uint (d : Decimal.uint) :
  count_nl (NilEmpty.string_of_uint d) = 0%nat.
Proof. induction d; simpl; done. Qed.

Lemma count_nl_str_N (n : N) : count_nl (str_N n) = 0%nat.
Proof. rewrite str_N_digits. apply count_nl_uint. Qed.

Lemma count_nl_uint_zero (d : Decimal.uint) :
  count_nl (NilZero.string_of_uint d) = 0%nat.
Proof.
  unfold NilZero.string_of_uint. destruct d; first [done | apply count_nl_uint].
Qed.

Lemma count_nl_str_int (z : Z) : count_nl (str_int z) = 0%nat.
Proof.
  unfold str_int, NilZero.string_of_int.
  destruct (Z.to_int z) as [d|d]; [apply count_nl_uint_zero|].
  simpl. apply count_nl_uint_zero.
Qed.

Lemma count_nl_digit (n : N) : count_nl (digit n) = 0%nat.
Proof.
  unfold digit. pose proof (N.mod_upper_bound n 10 ltac:(done)) as Hlt.
  destruct (n `mod` 10)%N as [|p]; [done|].
  do 4 (destruct p as [p|p|]; try done; try lia).
Qed.

Lemma count_nl_fixed_digits (w : nat) : ∀ n, count_nl (fixed_digits w n) = 0%nat.
Proof.
  induction w as [|w IH]; intros n; simpl; [done|].
  by rewrite count_nl_app, IH, count_nl_digit.
Qed.

Lemma length_fixed_digits (w : nat) : ∀ n, String.length (fixed_digits w n) = w.
Proof.
  induction w as [|w IH]; intros n; simpl; [done|].
  rewrite length_app_s, IH. simpl. lia.
Qed.

Lemma count_nl_fmt_6f (q : Qc) : count_nl (fmt_6f q) = 0%nat.
Proof.
  unfold fmt_6f. rewrite !count_nl_app, count_nl_str_N, count_nl_fixed_digits.
  by case_decide.
Qed.

Lemma digits_value_app (s t : string) :
  ∀ acc, digits_value acc (s +:+ t) = digits_value (digits_value acc s) t.
Proof. induction s as [|c s IH]; intros acc; simpl; [done | apply IH]. Qed.

Lemma digits_value_digit (acc n : N) :
  digits_value acc (digit n) = (10 * acc + n `mod` 10)%N.
Proof.
  pose proof (N.mod_upper_bound n 10 ltac:(done)) as Hlt.
  unfold digit. cbn [digits_value]. rewrite N_ascii_embedding.
  - revert Hlt. generalize (n `mod` 10)%N. intros m Hm. lia.
  - revert Hlt. generalize (n `mod` 10)%N. intros m Hm. lia.
Qed.

(** The fixed-width digits of [n] write [n] modulo the power of ten. *)
Lemma digits_value_fixed (w : nat) :
  ∀ n, digits_value 0 (fixed_digits w n) = (n `mod` 10 ^ N.of_nat w)%N.
Proof.
  induction w as [|w IH]; intros n.
  - simpl. by rewrite N.mod_1_r.
  - cbn [fixed_digits]. rewrite digits_value_app, IH, digits_value_digit.
    rewrite Nat2N.inj_succ, N.pow_succ_r'.
    rewrite (N.Div0.mod_mul_r n 10 (10 ^ N.of_nat w)).
    generalize ((n `div` 10) `mod` 10 ^ N.of_nat w)%N (n `mod` 10)%N.
    intros a b. lia.
Qed.

(** *** Frame names *)

Lemma fmt_04_length_check :
  forallb (λ i, String.length (fmt_04 i) =? 4)%nat (seq 0 (100 * 100)) = true.
Proof. vm_compute. reflexivity. Qed.

(** Below ten thousand the padded index has exactly four characters. *)
Lemma fmt_04_length (i : nat) :
  (i < 100 * 100)%nat → String.length (fmt_04 i) = 4%nat.
Proof.
  intros Hi. pose proof fmt_04_length_check as H.
  rewrite forallb_forall in H. apply Nat.eqb_eq, H, in_seq. lia.
Qed.

Lemma starts_with_slash_frame_name base i j :
  starts_with_slash (frame_name base i) = starts_with_slash (frame_name base j).
Proof. by destruct base. Qed.

Lemma frame_name_inj base i j : frame_name base i = frame_name base j → i = j.
Proof.
  unfold frame_name. intros H. apply (inj (String.app base)) in H.
  apply (inj (String.app "_")) in H. apply app_inj_suffix in H.
  by apply fmt_04_inj.
Qed.

(** Distinct frames are written to distinct paths. *)
Lemma frame_path_inj dir base i j :
  frame_path dir base i = frame_path dir base j → i = j.
Proof.
  unfold frame_path, path_join.
  rewrite (starts_with_slash_frame_name base i j).
  destruct (starts_with_slash (frame_name base j)); [apply frame_name_inj|].
  destruct (bool_decide (dir = "") || ends_with_slash dir); intros H.
  - apply (inj (String.app dir)) in H. by apply frame_name_inj in H.
  - apply (inj (String.app dir)) in H. apply (inj (String.app "/")) in H.
    by apply frame_name_inj in H.
Qed.

Lemma frame_paths_NoDup dir base i n :
  NoDup (frame_path dir base <$> seq i n).
Proof.
  apply NoDup_fmap_2; [|apply NoDup_seq].
  intros a b. apply frame_path_inj.
Qed.

(** *** Lines *)

Lemma join_lines_app (l1 l2 : list string) :
  join_lines (l1 ++ l2) = join_lines l1 +:+ join_lines l2.
Proof.
  induction l1 as [|l l1 IH]; [done|].
  change (join_lines ((l :: l1) ++ l2))
    with (l +:+ newline +:+ join_lines (l1 ++ l2)).
  change (join_lines (l :: l1)) with (l +:+ newline +:+ join_lines l1).
  by rewrite IH, !app_assoc_s.
Qed.

Lemma count_nl_join_lines (ls : list string) :
  Forall (λ l, count_nl l = 0%nat) ls → count_nl (join_lines ls) = length ls.
Proof.
  induction 1 as [|l ls Hl _ IH]; [done|].
  change (join_lines (l :: ls)) with (l +:+ newline +:+ join_lines ls).
  rewrite !count_nl_app, Hl, IH. done.
Qed.

Lemma vertex_line_record v : vertex_line v = obj_vertex_record v +:+ newline.
Proof. unfold vertex_line, obj_vertex_record. by rewrite !app_assoc_s. Qed.

Lemma count_nl_vertex_record v : count_nl (obj_vertex_record v) = 0%nat.
Proof.
  unfold obj_vertex_record. by rewrite !count_nl_app, !count_nl_fmt_6f.
Qed.

Lemma count_nl_face_record (tri : Z * Z * Z) :
  count_nl (obj_face_record tri) = 0%nat.
Proof.
  destruct tri as [[a b] c]. unfold obj_face_record.
  by rewrite !count_nl_app, !count_nl_str_int.
Qed.

Lemma verts_text_lines verts :
  verts_text verts = join_lines (obj_vertex_record <$> verts).
Proof.
  induction verts as [|v verts IH]; [done|].
  change (verts_text (v :: verts)) with (vertex_line v +:+ verts_text verts).
  rewrite fmap_cons.
  change (join_lines (?l :: ?ls)) with (l +:+ newline +:+ join_lines ls).
  by rewrite IH, vertex_line_record, app_assoc_s.
Qed.

End strings.

(** ** Rounding *)

Section rounding.

Local Close Scope Qc_scope.
Local Open Scope Q_scope.

(** Rounding moves a rational by at most one half. *)
Lemma round_half_even_close (x : Q) :
  inject_Z (round_half_even x) - (1 # 2) <= x ∧
  x <= inject_Z (round_half_even x) + (1 # 2).
Proof.
  destruct x as [n d]. unfold round_half_even. cbn [Qnum Qden].
  pose proof (Z.div_mod n (Z.pos d) ltac:(done)) as Hdm.
  pose proof (Z.mod_pos_bound n (Z.pos d) ltac:(done)) as Hr.
  set (fl := (n `div` Z.pos d)%Z) in *. set (r := (n `mod` Z.pos d)%Z) in *.
  destruct (Z.compare_spec (2 * r) (Z.pos d)) as [He|Hlt|Hgt];
    [destruct (Z.even fl)|..];
    unfold Qle, Qminus, Qplus, Qopp, inject_Z; cbn [Qnum Qden]; split; nia.
Qed.

Lemma round_half_even_nonneg (x : Q) : 0 <= x → (0 ≤ round_half_even x)%Z.
Proof.
  destruct x as [n d]. unfold Qle, round_half_even. cbn [Qnum Qden].
  intros Hn. assert (0 ≤ n `div` Z.pos d)%Z by (apply Z.div_pos; lia).
  destruct (2 * (n `mod` Z.pos d) ?= Z.pos d)%Z; [destruct (Z.even _)|..]; lia.
Qed.

(** The digits printed for a coordinate are those of its absolute value in
    millionths, rounded to the nearest integer. *)
Lemma millionths_close (q : Qc) :
  (0 ≤ millionths q)%Z ∧
  inject_Z (millionths q) - (1 # 2) <= Qabs q * inject_Z 1000000 ∧
  Qabs q * inject_Z 1000000 <= inject_Z (millionths q) + (1 # 2).
Proof.
  unfold millionths. split; [|apply round_half_even_close].
  apply round_half_even_nonneg. apply Qmult_le_0_compat; [apply Qabs_nonneg|done].
Qed.

End rounding.

(** ** Reading the written text back *)

Section read_back.

Local Open Scope string_scope.
Local Arguments String.append _ _ : simpl nomatch.

Lemma parse_str_N (n : N) : parse_N (str_N n) = Some n.
Proof. apply (parse_zero_pad 0 n). Qed.

Lemma div_mod_millionths (n : N) :
  (n `div` 1000000 * 1000000 + n `mod` 1000000 = n)%N.
Proof. rewrite N.mul_comm. symmetry. apply N.div_mod. done. Qed.

Lemma str_N_nonempty (n : N) : str_N n ≠ "".
Proof.
  rewrite str_N_digits. pose proof (N_to_uint_nonnil n) as H.
  destruct (N.to_uint n); first [done | discriminate].
Qed.

Lemma all_digits_app (s t : string) :
  all_digits (s +:+ t) = all_digits s && all_digits t.
Proof.
  induction s as [|c s IH]; [done|]. simpl. rewrite IH.
  by rewrite <-!andb_assoc.
Qed.

Lemma all_digits_digit (n : N) : all_digits (digit n) = true.
Proof.
  pose proof (N.mod_upper_bound n 10 ltac:(done)) as Hlt.
  unfold digit. cbn [all_digits]. revert Hlt.
  generalize (n `mod` 10)%N. intros m Hm.
  rewrite N_ascii_embedding by lia.
  rewrite andb_true_r. apply andb_true_intro. split; apply N.leb_le; lia.
Qed.

Lemma all_digits_fixed (w : nat) : ∀ n, all_digits (fixed_digits w n) = true.
Proof.
  induction w as [|w IH]; intros n; [done|]. cbn [fixed_digits].
  by rewrite all_digits_app, IH, all_digits_digit.
Qed.

(** An integer written in decimal reads back as itself. *)
Lemma parse_Z_str_int (z : Z) : parse_Z (str_int z) = Some z.
Proof.
  unfold parse_Z, str_int. rewrite NilZero.isi.
  - simpl. by rewrite DecimalZ.of_to.
  - destruct z as [|p|p]; simpl; [discriminate | | discriminate].
    intros [= H]. by apply DecimalPos.Unsigned.to_uint_nonnil in H.
  - destruct z as [|p|p]; simpl; [discriminate | discriminate |].
    intros [= H]. by apply DecimalPos.Unsigned.to_uint_nonnil in H.
Qed.

(** What [fmt_6f] writes is the coordinate with six decimals. *)
Lemma six_decimals_fmt_6f (q : Qc) : six_decimals q (fmt_6f q).
Proof.
  destruct (millionths_close q) as (Hpos & Hlo & Hhi).
  set (n := Z.to_N (millionths q)).
  exists (if decide (q < 0)%Qc then "-" else ""), (str_N (n `div` 1000000)),
    (fixed_digits 6 n), (n `div` 1000000)%N.
  assert (Hn : Z.of_N (n `div` 1000000 * 1000000
                       + digits_value 0 (fixed_digits 6 n))
               = millionths q).
  { rewrite (digits_value_fixed 6). change (10 ^ N.of_nat 6)%N with 1000000%N.
    rewrite div_mod_millionths. unfold n. by rewrite Z2N.id. }
  split_and!.
  - done.
  - case_decide; auto.
  - intros Hq. by rewrite decide_True.
  - intros Hq. rewrite decide_False; [done|].
    apply Qcle_not_lt. by apply Qclt_le_weak.
  - apply str_N_nonempty.
  - apply parse_str_N.
  - apply length_fixed_digits.
  - apply all_digits_fixed.
  - cbv zeta. rewrite Hn. split; done.
Qed.

Lemma vertex_record_fmt (v : vec3) : vertex_record_ok v (obj_vertex_record v).
Proof.
  exists (fmt_6f (ax0 v)), (fmt_6f (ax1 v)), (fmt_6f (ax2 v)).
  split_and!; first [done | apply six_decimals_fmt_6f].
Qed.

Lemma face_record_fmt (t : Z * Z * Z) : face_record_ok t (obj_face_record t).
Proof.
  destruct t as [[a b] c].
  exists (str_int (a + 1)), (str_int (b + 1)), (str_int (c + 1)).
  split_and!; first [done | apply parse_Z_str_int].
Qed.

(** The text of a frame is a frame file for its vertices and faces. *)
Lemma obj_text_ok (verts : list vec3) (tris : list (Z * Z * Z)) :
  obj_file_ok verts tris (obj_text verts tris).
Proof.
  exists (obj_vertex_record <$> verts), (obj_face_record <$> tris).
  split_and!.
  - done.
  - apply Forall2_fmap_r, Forall_Forall2_diag, Forall_forall.
    intros v _. apply vertex_record_fmt.
  - apply Forall2_fmap_r, Forall_Forall2_diag, Forall_forall.
    intros t _. apply face_record_fmt.
  - apply Forall_app. split; apply Forall_fmap, Forall_forall; intros x _;
      [apply count_nl_vertex_record | apply count_nl_face_record].
Qed.

Lemma valid_triple32_64 (t : Z * Z * Z) : valid_triple32 t → valid_triple t.
Proof.
  unfold valid_triple32, valid_triple, valid_index32, valid_index.
  intros (Ha & Hb & Hc). lia.
Qed.

Lemma valid_triples32_64 (tris : list (Z * Z * Z)) :
  Forall valid_triple32 tris → Forall valid_triple tris.
Proof. intros H. eapply Forall_impl; [exact H | apply valid_triple32_64]. Qed.

End read_back.

(** ** The exporter *)

Section exporter.

Local Open Scope string_scope.
Local Arguments String.append _ _ : simpl nomatch.

Lemma wrap64_small (z : Z) : (- 2 ^ 63 ≤ z < 2 ^ 63)%Z → wrap64 z = z.
Proof. intros Hz. unfold wrap64. rewrite Z.mod_small; lia. Qed.

Lemma face_index_row (row : list Z) (k : nat) (z : Z) :
  row !! k = Some z → valid_index z → face_index (I1 row) k = Ok (z + 1)%Z.
Proof.
  intros Hk Hz. unfold face_index, getitem, nth_res. rewrite Hk. simpl.
  unfold valid_index in Hz. rewrite wrap64_small; [done | lia].
Qed.

Lemma face_line_triple (a b c : Z) :
  valid_triple (a, b, c) →
  face_line (I1 [a; b; c]) = Ok (obj_face_record (a, b, c) +:+ newline).
Proof.
  intros (Ha & Hb & Hc). unfold face_line.
  rewrite (face_index_row _ 0 a), (face_index_row _ 1 b),
    (face_index_row _ 2 c) by done.
  simpl. unfold mret, result_ret. f_equal. unfold obj_face_record.
  repeat first [rewrite app_assoc_s | progress simpl]. done.
Qed.

Lemma face_lines_triples (tris : list (Z * Z * Z)) :
  Forall valid_triple tris →
  face_lines (I1 <$> ((λ '(a, b, c), [a; b; c]) <$> tris))
  = (join_lines (obj_face_record <$> tris), Ok ()).
Proof.
  induction 1 as [|[[a b] c] tris Ht _ IH]; [done|].
  rewrite !fmap_cons. cbn [face_lines]. rewrite face_line_triple, IH by done.
  change (join_lines (?l :: ?ls)) with (l +:+ newline +:+ join_lines ls).
  by rewrite app_assoc_s.
Qed.

Lemma faces_run_triples (tris : list (Z * Z * Z)) :
  Forall valid_triple tris →
  faces_run (faces_of_triples tris)
  = (join_lines (obj_face_record <$> tris), Ok ()).
Proof. intros H. unfold faces_run. simpl. by apply face_lines_triples. Qed.

(** For a face list of shape (F, 3) with valid indices, the loop body
    writes the text of the specification. *)
Lemma frame_text_triples (tris : list (Z * Z * Z)) (verts : list vec3) :
  Forall valid_triple tris →
  frame_text (faces_of_triples tris) verts = obj_text verts tris.
Proof.
  intros H. unfold frame_text, obj_text.
  by rewrite faces_run_triples, verts_text_lines, join_lines_app.
Qed.

(** *** Effects on the world *)

Lemma alter_Some (m : gmap string string) (k : string) (f : string → string) x :
  m !! k = Some x → alter f k m = <[k := f x]> m.
Proof.
  intros H. apply map_eq. intros j.
  rewrite lookup_alter, lookup_insert. case_decide; subst; [by rewrite H|done].
Qed.

Lemma for_each_write_verts (path : string) (verts : list vec3) :
  ∀ (w : world) (acc : string),
    files w !! path = Some acc →
    for_each verts (λ v, write path (vertex_line v)) w
    = (World (<[path := acc +:+ verts_text verts]> (files w)) (stdout w), Ok ()).
Proof.
  induction verts as [|v verts IH]; intros [fs out] acc Hacc; simpl in *.
  - unfold io_ret. by rewrite app_empty_r, insert_id.
  - unfold io_bind, write at 1. simpl.
    rewrite (alter_Some _ _ _ acc) by done.
    rewrite (IH _ (acc +:+ vertex_line v)); simpl.
    + by rewrite insert_insert_eq, app_assoc_s.
    + apply lookup_insert_eq.
Qed.

Lemma for_each_write_faces (path : string) (fs : list iarr) :
  ∀ (w : world) (acc : string),
    files w !! path = Some acc →
    for_each fs (λ face,
      line ←ᵢ io_lift (face_line face) ;; write path line) w
    = (World (<[path := acc +:+ (face_lines fs).1]> (files w)) (stdout w),
       (face_lines fs).2).
Proof.
  induction fs as [|face fs IH]; intros [m out] acc Hacc; simpl in *.
  - unfold io_ret. by rewrite app_empty_r, insert_id.
  - unfold io_bind at 1 2, io_lift. destruct (face_line face) as [line|e]; simpl.
    + rewrite (alter_Some _ _ _ acc) by done.
      rewrite (IH _ (acc +:+ line)); simpl; [|apply lookup_insert_eq].
      destruct (face_lines fs) as [t o]. simpl.
      by rewrite insert_insert_eq, app_assoc_s.
    + by rewrite app_empty_r, insert_id.
Qed.

(** The loop body, in one step. *)
Lemma export_frame_run dir base faces i verts (w : world) :
  export_frame dir base faces i verts w
  = (frame_written dir base faces i verts w, (faces_run faces).2).
Proof.
  unfold export_frame, frame_written, frame_text, faces_run.
  fold (frame_path dir base i). set (p := frame_path dir base i).
  destruct w as [m out].
  unfold io_bind at 1, open_w. cbn [files stdout].
  unfold io_bind at 1.
  rewrite (for_each_write_verts p verts _ "") by apply lookup_insert_eq.
  cbn [files stdout]. rewrite insert_insert_eq.
  unfold io_bind at 1, io_lift.
  destruct (iter_arr faces) as [fs|e]; cbn [fst snd].
  - unfold io_bind at 1.
    rewrite (for_each_write_faces p fs _ (verts_text verts))
      by apply lookup_insert_eq.
    cbn [files stdout]. rewrite insert_insert_eq.
    destruct (face_lines fs) as [t [[]|e]]; cbn [fst snd]; unfold print.
    + done.
    + by rewrite app_nil_r.
  - by rewrite app_empty_r, app_nil_r.
Qed.

Lemma for_enumerate_ok dir base faces :
  (faces_run faces).2 = Ok () →
  ∀ (fr : frames) (i : nat) (w : world),
    for_enumerate i fr (export_frame dir base faces) w
    = (frames_written dir base faces i fr w, Ok ()).
Proof.
  intros Hok. induction fr as [|verts fr IH]; intros i w; [done|].
  cbn [for_enumerate frames_written]. unfold io_bind.
  by rewrite export_frame_run, Hok, IH.
Qed.

(** When the face loop raises, the loop over the frames stops in its first
    round. *)
Lemma for_enumerate_err dir base faces e :
  (faces_run faces).2 = Err e →
  ∀ (verts : list vec3) (fr : frames) (i : nat) (w : world),
    for_enumerate i (verts :: fr) (export_frame dir base faces) w
    = (frame_written dir base faces i verts w, Err e).
Proof.
  intros Herr verts fr i w. cbn [for_enumerate]. unfold io_bind.
  by rewrite export_frame_run, Herr.
Qed.

Lemma frames_written_other dir base faces (fr : frames) :
  ∀ (i : nat) (w : world) (p : string),
    (∀ j, (j < length fr)%nat → p ≠ frame_path dir base (i + j)) →
    files (frames_written dir base faces i fr w) !! p = files w !! p.
Proof.
  induction fr as [|verts fr IH]; intros i w p Hp; [done|].
  cbn [frames_written]. rewrite IH.
  - unfold frame_written. cbn [files]. apply lookup_insert_ne.
    intros Heq. apply (Hp 0%nat); [simpl; lia|]. by rewrite Nat.add_0_r.
  - intros j Hj. replace (S i + j)%nat with (i + S j)%nat by lia.
    apply Hp. simpl. lia.
Qed.

Lemma frames_written_lookup dir base faces (fr : frames) :
  ∀ (i : nat) (w : world) (j : nat) (verts : list vec3),
    fr !! j = Some verts →
    files (frames_written dir base faces i fr w) !! frame_path dir base (i + j)
    = Some (frame_text faces verts).
Proof.
  induction fr as [|v fr IH]; intros i w j verts Hj; [done|].
  cbn [frames_written]. destruct j as [|j]; simpl in Hj.
  - injection Hj as ->. rewrite Nat.add_0_r, frames_written_other.
    + unfold frame_written. cbn [files]. apply lookup_insert_eq.
    + intros j _ Heq. apply frame_path_inj in Heq. lia.
  - replace (i + S j)%nat with (S i + j)%nat by lia. by apply IH.
Qed.

Lemma frames_written_stdout dir base faces (fr : frames) :
  (faces_run faces).2 = Ok () →
  ∀ (i : nat) (w : world),
    stdout (frames_written dir base faces i fr w)
    = (stdout w ++ (wrote_msg dir base <$> seq i (length fr)))%list.
Proof.
  intros Hok. induction fr as [|v fr IH]; intros i w.
  - simpl. by rewrite app_nil_r.
  - cbn [frames_written]. rewrite IH. unfold frame_written. cbn [stdout].
    rewrite Hok. simpl. by rewrite <-app_assoc.
Qed.

End exporter.


Lemma demo_mesh_valid : Forall valid_triple [(0, 1, 2)%Z].
Proof. repeat constructor; unfold valid_index; simpl; lia. Defined.

Lemma demo_mesh_valid32 : Forall valid_triple32 [(0, 1, 2)%Z].
Proof. repeat constructor; unfold valid_index32; simpl; lia. Defined.

Lemma demo_mesh_shape :
  Forall (λ verts : list vec3, length verts = 3%nat) (vertices demo_mesh).
Proof. repeat constructor. Defined.


Example export_demo_files :
  let run := export_animated_mesh_to_obj_sequence demo_mesh "out" "frame"
               demo_world in
  files run.1 !! "out/frame_0001.obj"%string
  = Some ("v 0.000000 1.000000 0.000000" +:+ newline +:+
          "v 0.500000 5.000000 0.000000" +:+ newline +:+
          "v 0.000000 3.000000 -0.142857" +:+ newline +:+
          "f 1 2 3" +:+ newline)%string.
Proof. vm_compute. reflexivity. Qed.

(** C7.  The exporter is deterministic in its input arrays: two runs on
    meshes with the same vertices and faces, from any two states of the
    world (whatever files exist already) and to any output directories and
    base names, end the same way, and every frame file written by one run
    has, byte for byte, the content of the file of the same frame written by
    the other.  (When the run raises, it does so in the first frame, whose
    file is the only one written.) *)
Theorem export_deterministic (m1 m2 : Meshes) (dir1 dir2 base1 base2 : string)
    (w1 w2 : world) :
  vertices m1 = vertices m2 → faces m1 = faces m2 →
  let run1 := export_animated_mesh_to_obj_sequence m1 dir1 base1 w1 in
  let run2 := export_animated_mesh_to_obj_sequence m2 dir2 base2 w2 in
  run1.2 = run2.2 ∧
  ∀ i, (i < length (vertices m1))%nat → run1.2 = Ok () ∨ i = 0%nat →
    ∃ text,
      files run1.1 !! frame_path dir1 base1 i = Some text ∧
      files run2.1 !! frame_path dir2 base2 i = Some text.
Proof.
  intros Hv Hf run1 run2. unfold run1, run2,
    export_animated_mesh_to_obj_sequence. rewrite <-Hv, <-Hf. clear.
  destruct (faces_run (faces m1)).2 as [[]|e] eqn:Hrun.
  - rewrite !for_enumerate_ok by done. cbn [fst snd]. split; [done|].
    intros i Hi _.
    destruct (lookup_lt_is_Some_2 (vertices m1) i Hi) as [verts Hverts].
    exists (frame_text (faces m1) verts).
    split; by apply (frames_written_lookup _ _ _ _ 0).
  - destruct (vertices m1) as [|verts fr]; [simpl; split; [done | lia]|].
    rewrite !(for_enumerate_err _ _ _ e) by done. cbn [fst snd].
    split; [done|]. intros i _ [[=]| ->].
    exists (frame_text (faces m1) verts). unfold frame_written. cbn [files].
    split; apply lookup_insert_eq.
Qed.

Lemma export_deterministic_witness :
  let run1 := export_animated_mesh_to_obj_sequence demo_mesh "out" "frame"
                demo_world in
  let run2 := export_animated_mesh_to_obj_sequence demo_mesh_renamed "tmp/"
                "f" (World ∅ []) in
  run1.2 = run2.2 ∧
  ∃ text,
    files run1.1 !! frame_path "out" "frame" 1 = Some text ∧
    files run2.1 !! frame_path "tmp/" "f" 1 = Some text.
Proof.
  pose proof (export_deterministic demo_mesh demo_mesh_renamed "out" "tmp/"
                "frame" "f" demo_world (World ∅ []) eq_refl eq_refl)
    as [H1 H2].
  split; [exact H1|].
  apply (H2 1%nat); [simpl; lia|]. left. vm_compute. reflexivity.
Defined.

(** * Further properties of [place_meshes] *)

Section placement_more.

Lemma placed_is_move min_z xs ys (a : frames) :
  add_ax2 ys (add_ax0 xs (sub_ax1 min_z a))
  = fmap (M := list) (fmap (M := list) (move_vec xs min_z ys)) a.
Proof.
  unfold add_ax2, add_ax0, sub_ax1.
  rewrite <-!list_fmap_compose. apply list_fmap_ext. intros _ f _.
  simpl. rewrite <-!list_fmap_compose. by apply list_fmap_ext.
Qed.

Lemma move_same_shape dx drop dz (a : frames) :
  same_shape (fmap (M := list) (fmap (M := list) (move_vec dx drop dz)) a) a.
Proof.
  unfold same_shape. rewrite <-list_fmap_compose. apply list_fmap_ext.
  intros _ f _. simpl. apply length_fmap.
Qed.

Lemma place_meshes_Ok_inv cloth obs xs ys cloth' obs' :
  place_meshes cloth obs xs ys = Ok (cloth', obs') →
  ∃ fl, floor_offset cloth obs = Ok fl ∧
        cloth' = fmap (M := list) (fmap (M := list) (move_vec xs fl ys)) cloth ∧
        obs' = (fmap (M := list) (fmap (M := list) (move_vec xs fl ys))) <$> obs.
Proof.
  unfold place_meshes. destruct (floor_offset cloth obs) as [fl|]; [|done].
  simpl. intros [= <- <-]. exists fl. split; [done|].
  split; [apply placed_is_move|]. destruct obs; simpl; [|done].
  by rewrite placed_is_move.
Qed.

End placement_more.

(** X1.  [place_meshes] is one translation: every vertex of every cloth and
    obstacle frame is moved by the same vector (x_shift, -floor_offset,
    y_shift); the arrays keep their shapes and the obstacle is returned
    exactly when one is given. *)
Theorem place_meshes_translation (cloth : frames) (obs : option frames)
    (xs ys : Qc) (cloth' : frames) (obs' : option frames) :
  place_meshes cloth obs xs ys = Ok (cloth', obs') →
  ∃ fl,
    floor_offset cloth obs = Ok fl ∧
    same_shape cloth' cloth ∧
    (∀ t v, vertex_at cloth' t v = move_vec xs fl ys <$> vertex_at cloth t v) ∧
    match obs, obs' with
    | Some o, Some o' =>
        same_shape o' o ∧
        ∀ t v, vertex_at o' t v = move_vec xs fl ys <$> vertex_at o t v
    | None, None => True
    | _, _ => False
    end.
Proof.
  intros (fl & Hfl & -> & ->)%place_meshes_Ok_inv. exists fl.
  split_and!; [done | apply move_same_shape | apply vertex_at_fmap |].
  destruct obs as [o|]; simpl; [|done].
  split; [apply move_same_shape | apply vertex_at_fmap].
Qed.

Lemma place_meshes_translation_witness :
  ∃ cloth' obs' fl,
    place_meshes demo_frames (Some [[Vec3 0 (qz (-4)) 0]]) (qz 3) (qz 5)
      = Ok (cloth', obs') ∧
    floor_offset demo_frames (Some [[Vec3 0 (qz (-4)) 0]]) = Ok fl ∧
    same_shape cloth' demo_frames.
Proof.
  destruct (place_meshes demo_frames (Some [[Vec3 0 (qz (-4)) 0]]) (qz 3) (qz 5))
    as [[cloth' obs']|e] eqn:E; [|vm_compute in E; discriminate E].
  destruct (place_meshes_translation _ _ _ _ _ _ E) as (fl & H1 & H2 & _).
  by exists cloth', obs', fl.
Defined.

(** X2.  The outcome of [place_meshes] by the shapes of its arguments: a
    zero-size obstacle array raises [ValueError] (whatever the cloth is);
    otherwise a cloth array without frames raises [IndexError]; otherwise a
    cloth frame 0 without vertices raises [ValueError]; otherwise the call
    succeeds.  Later cloth frames may be empty. *)
Theorem place_meshes_outcome (cloth : frames) (obs : option frames)
    (xs ys : Qc) :
  match obs with
  | Some o =>
      if decide (concat o = []) then
        place_meshes cloth obs xs ys = Err ValueError
      else
        match cloth with
        | [] => place_meshes cloth obs xs ys = Err IndexError
        | [] :: _ => place_meshes cloth obs xs ys = Err ValueError
        | (_ :: _) :: _ => ∃ r, place_meshes cloth obs xs ys = Ok r
        end
  | None =>
      match cloth with
      | [] => place_meshes cloth obs xs ys = Err IndexError
      | [] :: _ => place_meshes cloth obs xs ys = Err ValueError
      | (_ :: _) :: _ => ∃ r, place_meshes cloth obs xs ys = Ok r
      end
  end.
Proof.
  unfold place_meshes, floor_offset, up_all.
  destruct obs as [o|].
  - case_decide as Ho; [by rewrite Ho|].
    destruct (concat o) as [|p ps]; [done|].
    destruct cloth as [|[|q c0] rest]; simpl; eauto.
  - destruct cloth as [|[|q c0] rest]; simpl; eauto.
Qed.

Section placement_twice.

Lemma py_min_shift (a b c : Qc) : py_min (a - c) (b - c) = py_min a b - c.
Proof.
  unfold py_min. destruct (decide (b < a)) as [H|H].
  - rewrite decide_True; [done|]. unfold Qcminus. by apply Qcplus_lt_mono_r.
  - rewrite decide_False; [done|]. unfold Qcminus.
    intros H'. by apply Qcplus_lt_mono_r in H'.
Qed.

(** After placement the floor offset is zero. *)
Lemma floor_offset_placed cloth obs xs ys cloth' obs' :
  place_meshes cloth obs xs ys = Ok (cloth', obs') →
  floor_offset cloth' obs' = Ok 0.
Proof.
  unfold place_meshes.
  destruct (floor_offset cloth obs) as [fl|] eqn:Hfl; [|done].
  simpl. intros [= <- <-]. unfold floor_offset in *.
  destruct obs as [o|].
  - destruct (np_min (up_all o)) as [mo|] eqn:Hmo; [|done]. simpl in Hfl.
    destruct cloth as [|c0 rest]; [done|]. simpl in Hfl.
    destruct (np_min (up_frame c0)) as [mc|] eqn:Hmc; [|done].
    simpl in Hfl. injection Hfl as <-.
    rewrite up_all_placed, (np_min_shift _ _ _ Hmo). simpl.
    rewrite up_frame_placed, (np_min_shift _ _ _ Hmc). simpl.
    unfold mret, result_ret. f_equal. rewrite py_min_shift. ring.
  - destruct cloth as [|c0 rest]; [done|]. simpl in Hfl.
    destruct (np_min (up_frame c0)) as [mc|] eqn:Hmc; [|done].
    simpl in Hfl. injection Hfl as <-. simpl.
    rewrite up_frame_placed, (np_min_shift _ _ _ Hmc). simpl.
    unfold mret, result_ret. f_equal. ring.
Qed.

Lemma move_vec_twice x1 x2 fl y1 y2 (p : vec3) :
  move_vec x2 0 y2 (move_vec x1 fl y1 p) = move_vec (x1 + x2) fl (y1 + y2) p.
Proof. unfold move_vec. simpl. f_equal; ring. Qed.

Lemma move_frames_twice x1 x2 fl y1 y2 (a : frames) :
  fmap (M := list) (fmap (M := list) (move_vec x2 0 y2))
    (fmap (M := list) (fmap (M := list) (move_vec x1 fl y1)) a)
  = fmap (M := list) (fmap (M := list) (move_vec (x1 + x2) fl (y1 + y2))) a.
Proof.
  rewrite <-list_fmap_compose. apply list_fmap_ext. intros _ f _. simpl.
  rewrite <-list_fmap_compose. apply list_fmap_ext. intros _ p _.
  apply move_vec_twice.
Qed.

End placement_twice.

(** X3.  With an obstacle, a placed scene lies on the floor: its floor
    offset is zero, and placing it again with zero shifts returns it
    unchanged. *)
Theorem place_meshes_twice (cloth obs : frames) (x1 y1 : Qc)
    (cloth' obs' : frames) :
  place_meshes cloth (Some obs) x1 y1 = Ok (cloth', Some obs') →
  floor_offset cloth' (Some obs') = Ok 0 ∧
  place_meshes cloth' (Some obs') 0 0 = Ok (cloth', Some obs').
Proof.
  intros H.
  pose proof (floor_offset_placed _ _ _ _ _ _ H) as H0. split; [exact H0|].
  rewrite <-H.
  apply place_meshes_Ok_inv in H as (fl & Hfl & -> & Hobs).
  simpl in Hobs. injection Hobs as ->.
  unfold place_meshes. rewrite H0, Hfl. simpl.
  unfold mret, result_ret.
  by rewrite !placed_is_move, !move_frames_twice, !Qcplus_0_r.
Qed.

Lemma place_meshes_twice_witness :
  ∃ cloth' obs',
    place_meshes demo_frames (Some [[Vec3 0 (qz (-4)) 0]]) (qz 3) (qz 5)
      = Ok (cloth', Some obs') ∧
    place_meshes cloth' (Some obs') 0 0 = Ok (cloth', Some obs').
Proof.
  destruct (place_meshes demo_frames (Some [[Vec3 0 (qz (-4)) 0]]) (qz 3) (qz 5))
    as [[cloth' [obs'|]]|e] eqn:E;
    [ | vm_compute in E; discriminate E | vm_compute in E; discriminate E].
  exists cloth', obs'. split; [done|].
  exact (proj2 (place_meshes_twice _ _ _ _ _ _ E)).
Defined.

(** * Further properties of [adjust_color] *)

Section colour_more.

Lemma drop_update_rgb (f : fnum → fnum) (color : list fnum) :
  drop 3 (update_rgb f color) = drop 3 color.
Proof.
  unfold update_rgb. destruct color as [|a [|b [|c rest]]]; try done.
Qed.

Lemma take_update_rgb (f : fnum → fnum) (color : list fnum) :
  take 3 (update_rgb f color) = f <$> take 3 color.
Proof.
  unfold update_rgb. destruct color as [|a [|b [|c rest]]]; try done.
Qed.

Lemma update_rgb_compose (f g : fnum → fnum) (color : list fnum) :
  update_rgb g (update_rgb f color) = update_rgb (g ∘ f) color.
Proof.
  unfold update_rgb at 1. rewrite take_update_rgb, drop_update_rgb.
  unfold update_rgb. by rewrite <-list_fmap_compose.
Qed.

(** The three in-place updates as one. *)
Lemma adjust_color_Ok (color : list fnum) (m : fnum) :
  np_max (take 3 color) = Ok m →
  adjust_color color
  = Ok (update_rgb (λ c, fadd (fmul (fdiv c m) c03) c03) color).
Proof.
  intros Hm. unfold adjust_color. rewrite Hm. simpl.
  by rewrite !update_rgb_compose.
Qed.

End colour_more.

Section colour_finite.

Implicit Types (r g b x y m k : Qc) (a : fnum).

Lemma q03_pos : 0 < qfrac 3 10.
Proof. by vm_compute. Qed.

Lemma q03_ne : qfrac 3 10 ≠ 0.
Proof. apply not_eq_sym, Qclt_not_eq, q03_pos. Qed.

Lemma q06_double : qfrac 6 10 = 2 * qfrac 3 10.
Proof. rewrite <-q03_double. ring. Qed.

Lemma fmax_Fin x y : fmax (Fin x) (Fin y) = Fin (qmax x y).
Proof. unfold fmax, qmax. by case_decide. Qed.

Lemma np_max_rgb r g b a :
  np_max (take 3 (rgba (Fin r) (Fin g) (Fin b) a))
  = Ok (Fin (qmax (qmax r g) b)).
Proof.
  change (Ok (fmax (fmax (Fin r) (Fin g)) (Fin b))
          = Ok (Fin (qmax (qmax r g) b))).
  by rewrite !fmax_Fin.
Qed.

Lemma qmax_le_l x y : x ≤ qmax x y.
Proof. unfold qmax. case_decide; [by apply Qclt_le_weak | apply Qcle_refl]. Qed.

Lemma qmax_le_r x y : y ≤ qmax x y.
Proof. unfold qmax. case_decide; [apply Qcle_refl | by apply Qcnot_lt_le]. Qed.

Lemma qmax_cases x y : qmax x y = x ∨ qmax x y = y.
Proof. unfold qmax. case_decide; auto. Qed.

(** A strictly increasing function commutes with the maximum. *)
Lemma qmax_increasing (f : Qc → Qc) x y :
  (∀ u v, u < v → f u < f v) → qmax (f x) (f y) = f (qmax x y).
Proof.
  intros Hf. unfold qmax. destruct (decide (x < y)) as [H|H].
  - by rewrite decide_True by auto.
  - rewrite decide_False; [done|]. apply Qcnot_lt_le in H.
    apply Qcle_not_lt. destruct (Qcle_lt_or_eq _ _ H) as [?| ->];
      [apply Qclt_le_weak; auto | apply Qcle_refl].
Qed.

Lemma some_positive r g b :
  0 ≤ r → 0 ≤ g → 0 ≤ b → ¬ (r = 0 ∧ g = 0 ∧ b = 0) →
  0 < r ∨ 0 < g ∨ 0 < b.
Proof.
  intros Hr Hg Hb Hnz.
  destruct (Qcle_lt_or_eq _ _ Hr) as [?| <-]; [auto|].
  destruct (Qcle_lt_or_eq _ _ Hg) as [?| <-]; [auto|].
  destruct (Qcle_lt_or_eq _ _ Hb) as [?| <-]; [auto|].
  by destruct Hnz.
Qed.

Lemma qmax3_positive r g b : 0 < r ∨ 0 < g ∨ 0 < b → 0 < qmax (qmax r g) b.
Proof.
  intros [H|[H|H]].
  - eapply Qclt_le_trans; [done|].
    eapply Qcle_trans; [apply qmax_le_l | apply qmax_le_l].
  - eapply Qclt_le_trans; [done|].
    eapply Qcle_trans; [apply qmax_le_r | apply qmax_le_l].
  - eapply Qclt_le_trans; [done | apply qmax_le_r].
Qed.

Lemma adjust_color_finite r g b a :
  qmax (qmax r g) b ≠ 0 →
  adjust_color (rgba (Fin r) (Fin g) (Fin b) a)
  = Ok (rgba (Fin (muted r (qmax (qmax r g) b)))
             (Fin (muted g (qmax (qmax r g) b)))
             (Fin (muted b (qmax (qmax r g) b))) a).
Proof.
  intros Hm. rewrite (adjust_color_Ok _ _ (np_max_rgb r g b a)).
  unfold update_rgb, rgba. cbn [take drop fmap list_fmap app].
  by rewrite !adjust_channel_finite.
Qed.

Lemma muted_top m : m ≠ 0 → muted m m = qfrac 6 10.
Proof. intros Hm. rewrite q06_double. unfold muted. by field. Qed.

Lemma muted_zero m : muted 0 m = qfrac 3 10.
Proof. unfold muted, Qcdiv. by rewrite !Qcmult_0_l, Qcplus_0_l. Qed.

Lemma muted_increasing m x y : 0 < m → x < y → muted x m < muted y m.
Proof.
  intros Hm Hxy. unfold muted, Qcdiv. apply Qcplus_lt_mono_r.
  apply Qcmult_lt_mono_pos_r; [apply q03_pos|].
  apply Qcmult_lt_mono_pos_r; [by apply Qcinv_pos | done].
Qed.

Lemma muted_le m x y : 0 < m → x ≤ y ↔ muted x m ≤ muted y m.
Proof.
  intros Hm. split.
  - intros [H| ->]%Qcle_lt_or_eq; [|apply Qcle_refl].
    by apply Qclt_le_weak, muted_increasing.
  - intros H. apply Qcnot_lt_le. intros Hlt.
    apply (muted_increasing m) in Hlt; [|done]. by apply Qclt_not_le in Hlt.
Qed.

End colour_finite.

(** X5.  When the first three channels are finite, non-negative and not
    all zero, the brightest channel comes out as exactly 0.6, no channel
    comes out above 0.6, and a channel that is zero comes out as exactly
    0.3. *)
Theorem adjust_color_extremes (r g b : Qc) (a : fnum) :
  0 ≤ r → 0 ≤ g → 0 ≤ b → ¬ (r = 0 ∧ g = 0 ∧ b = 0) →
  ∃ r' g' b',
    adjust_color (rgba (Fin r) (Fin g) (Fin b) a)
      = Ok (rgba (Fin r') (Fin g') (Fin b') a) ∧
    (r' = qfrac 6 10 ∨ g' = qfrac 6 10 ∨ b' = qfrac 6 10) ∧
    (r' ≤ qfrac 6 10 ∧ g' ≤ qfrac 6 10 ∧ b' ≤ qfrac 6 10) ∧
    (r = 0 → r' = qfrac 3 10) ∧ (g = 0 → g' = qfrac 3 10) ∧
    (b = 0 → b' = qfrac 3 10).
Proof.
  intros H0r H0g H0b Hnz.
  pose proof (qmax3_positive _ _ _ (some_positive r g b H0r H0g H0b Hnz))
    as Hpos.
  set (m := qmax (qmax r g) b) in *.
  assert (Hm : m ≠ 0) by (by apply not_eq_sym, Qclt_not_eq).
  assert (Hr : r ≤ m) by (eapply Qcle_trans; [apply qmax_le_l | apply qmax_le_l]).
  assert (Hg : g ≤ m) by (eapply Qcle_trans; [apply qmax_le_r | apply qmax_le_l]).
  assert (Hb : b ≤ m) by apply qmax_le_r.
  exists (muted r m), (muted g m), (muted b m).
  split; [by apply adjust_color_finite|]. split.
  { rewrite <-(muted_top m Hm). unfold m.
    destruct (qmax_cases (qmax r g) b) as [-> | ->]; [|auto].
    destruct (qmax_cases r g) as [-> | ->]; auto. }
  split.
  { rewrite <-(muted_top m Hm). split_and!; by apply muted_le. }
  split_and!; intros ->; apply muted_zero.
Qed.

Lemma adjust_color_extremes_witness :
  ∃ r' g' b',
    adjust_color (rgba (Fin (qz 1)) (Fin 0) (Fin (qz 7)) (Fin 1))
      = Ok (rgba (Fin r') (Fin g') (Fin b') (Fin 1)) ∧
    (r' = qfrac 6 10 ∨ g' = qfrac 6 10 ∨ b' = qfrac 6 10) ∧
    g' = qfrac 3 10.
Proof.
  destruct (adjust_color_extremes (qz 1) 0 (qz 7) (Fin 1))
    as (r' & g' & b' & H1 & H2 & _ & _ & H4 & _).
  - by vm_compute.
  - by vm_compute.
  - by vm_compute.
  - intros (H & _ & _). vm_compute in H. discriminate H.
  - exists r', g', b'. split_and!; [exact H1 | exact H2 | exact (H4 eq_refl)].
Defined.

(** X6.  [adjust_color] does not see the scale of a colour: multiplying the
    first three (finite) channels by one positive factor does not change
    the result. *)
Theorem adjust_color_scale (k r g b : Qc) (a : fnum) :
  0 < k →
  adjust_color (rgba (Fin (k * r)) (Fin (k * g)) (Fin (k * b)) a)
  = adjust_color (rgba (Fin r) (Fin g) (Fin b) a).
Proof.
  intros Hk.
  assert (Hk0 : k ≠ 0) by (by apply not_eq_sym, Qclt_not_eq).
  assert (Hmax : qmax (qmax (k * r) (k * g)) (k * b)
                 = k * qmax (qmax r g) b).
  { rewrite !(qmax_increasing (Qcmult k)); [done|..];
      intros u v Huv; by apply Qcmult_lt_mono_pos_l. }
  rewrite (adjust_color_Ok _ _ (np_max_rgb _ _ _ a)),
    (adjust_color_Ok _ _ (np_max_rgb r g b a)), Hmax.
  set (m := qmax (qmax r g) b).
  assert (Hdiv : ∀ x, fdiv (Fin (k * x)) (Fin (k * m)) = fdiv (Fin x) (Fin m)).
  { intros x. unfold fdiv.
    destruct (decide (m = 0)) as [->|Hm].
    - rewrite Qcmult_0_r, decide_True by done.
      destruct (decide (x = 0)) as [->|Hx].
      + by rewrite Qcmult_0_r, decide_True.
      + rewrite decide_False
          by (intros [?|?]%Qcmult_integral; done).
        destruct (decide (0 < x)) as [Hp|Hp].
        * rewrite decide_True; [done|]. by apply Qcmult_pos_pos.
        * rewrite decide_False; [done|]. intros H.
          rewrite <-(Qcmult_0_r k) in H.
          by apply Qcmult_lt_mono_pos_l in H.
    - rewrite decide_False by (intros [?|?]%Qcmult_integral; done).
      f_equal. by field. }
  unfold update_rgb, rgba. cbn [take drop fmap list_fmap app].
  by rewrite !Hdiv.
Qed.

Lemma adjust_color_scale_witness :
  adjust_color (rgba (Fin (qz 10 * qz 2)) (Fin (qz 10 * qz 4))
                     (Fin (qz 10 * qz 4)) (Fin 1))
  = adjust_color (rgba (Fin (qz 2)) (Fin (qz 4)) (Fin (qz 4)) (Fin 1)).
Proof. apply (adjust_color_scale (qz 10)). by vm_compute. Defined.

(** X7.  When the first three channels are finite, non-negative and not
    all zero, [adjust_color] keeps their order: a channel that is at most
    another before is at most that other after. *)
Theorem adjust_color_order (r g b : Qc) (a : fnum) :
  0 ≤ r → 0 ≤ g → 0 ≤ b → ¬ (r = 0 ∧ g = 0 ∧ b = 0) →
  ∃ r' g' b',
    adjust_color (rgba (Fin r) (Fin g) (Fin b) a)
      = Ok (rgba (Fin r') (Fin g') (Fin b') a) ∧
    (r ≤ g → r' ≤ g') ∧ (g ≤ r → g' ≤ r') ∧
    (g ≤ b → g' ≤ b') ∧ (b ≤ g → b' ≤ g') ∧
    (r ≤ b → r' ≤ b') ∧ (b ≤ r → b' ≤ r').
Proof.
  intros H0r H0g H0b Hnz.
  pose proof (qmax3_positive _ _ _ (some_positive r g b H0r H0g H0b Hnz))
    as Hpos.
  set (m := qmax (qmax r g) b) in *.
  assert (Hm : m ≠ 0) by (by apply not_eq_sym, Qclt_not_eq).
  exists (muted r m), (muted g m), (muted b m).
  split; [by apply adjust_color_finite|].
  split_and!; by apply muted_le.
Qed.

Lemma adjust_color_order_witness :
  ∃ r' g' b',
    adjust_color (rgba (Fin (qz 2)) (Fin (qz 4)) (Fin (qz 3)) (Fin 1))
      = Ok (rgba (Fin r') (Fin g') (Fin b') (Fin 1)) ∧
    r' ≤ g' ∧ b' ≤ g' ∧ r' ≤ b'.
Proof.
  destruct (adjust_color_order (qz 2) (qz 4) (qz 3) (Fin 1))
    as (r' & g' & b' & H1 & H2 & _ & _ & H5 & H6 & _).
  - by vm_compute.
  - by vm_compute.
  - by vm_compute.
  - intros (H & _ & _). vm_compute in H. discriminate H.
  - exists r', g', b'. split_and!;
      [exact H1 | apply H2 | apply H5 | apply H6]; by vm_compute.
Defined.

(** X8.  A grey settles in one step: when the first three channels are
    equal and positive, the result is (0.6, 0.6, 0.6, alpha), and adjusting
    that colour again returns it unchanged. *)
Theorem adjust_color_grey (r : Qc) (a : fnum) :
  0 < r →
  adjust_color (rgba (Fin r) (Fin r) (Fin r) a)
    = Ok (rgba (Fin (qfrac 6 10)) (Fin (qfrac 6 10)) (Fin (qfrac 6 10)) a) ∧
  adjust_color (rgba (Fin (qfrac 6 10)) (Fin (qfrac 6 10)) (Fin (qfrac 6 10)) a)
    = Ok (rgba (Fin (qfrac 6 10)) (Fin (qfrac 6 10)) (Fin (qfrac 6 10)) a).
Proof.
  intros Hr.
  assert (Hgrey : ∀ x, 0 < x →
            adjust_color (rgba (Fin x) (Fin x) (Fin x) a)
            = Ok (rgba (Fin (qfrac 6 10)) (Fin (qfrac 6 10))
                       (Fin (qfrac 6 10)) a)).
  { intros x Hx.
    assert (Hmax : qmax (qmax x x) x = x).
    { unfold qmax. by repeat case_decide. }
    assert (Hx0 : x ≠ 0) by (by apply not_eq_sym, Qclt_not_eq).
    rewrite adjust_color_finite by (by rewrite Hmax).
    by rewrite Hmax, !(muted_top x Hx0). }
  split; [by apply Hgrey|]. apply Hgrey. by vm_compute.
Qed.

Lemma adjust_color_grey_witness :
  adjust_color (rgba (Fin (qz 5)) (Fin (qz 5)) (Fin (qz 5)) (Fin 1))
  = Ok (rgba (Fin (qfrac 6 10)) (Fin (qfrac 6 10)) (Fin (qfrac 6 10)) (Fin 1)).
Proof.
  apply (adjust_color_grey (qz 5) (Fin 1)). by vm_compute.
Defined.

Section colour_nan.

Lemma fmax_NaN_l (x : fnum) : fmax NaN x = NaN.
Proof. done. Qed.

Lemma fmax_NaN_r (x : fnum) : fmax x NaN = NaN.
Proof. by destruct x. Qed.

Lemma foldl_fmax_NaN (l : list fnum) : foldl fmax NaN l = NaN.
Proof. induction l as [|x l IH]; simpl; done. Qed.

Lemma foldl_fmax_has_NaN (l : list fnum) :
  NaN ∈ l → ∀ x, foldl fmax x l = NaN.
Proof.
  induction l as [|y l IH]; intros Hin x; [by apply elem_of_nil in Hin|].
  simpl. apply elem_of_cons in Hin as [<-|Hin].
  - rewrite fmax_NaN_r. apply foldl_fmax_NaN.
  - by apply IH.
Qed.

Lemma np_max_has_NaN (l : list fnum) : NaN ∈ l → np_max l = Ok NaN.
Proof.
  destruct l as [|x l]; intros Hin; [by apply elem_of_nil in Hin|].
  simpl. f_equal. apply elem_of_cons in Hin as [<-|Hin].
  - apply foldl_fmax_NaN.
  - by apply foldl_fmax_has_NaN.
Qed.

Lemma adjust_channel_NaN (c : fnum) : fadd (fmul (fdiv c NaN) c03) c03 = NaN.
Proof. by destruct c. Qed.

Lemma adjust_channels_NaN (l : list fnum) :
  (λ c, fadd (fmul (fdiv c NaN) c03) c03) <$> l = replicate (length l) NaN.
Proof.
  induction l as [|c l IH]; [done|].
  rewrite fmap_cons, adjust_channel_NaN, IH. done.
Qed.

End colour_nan.

(** X9.  A NaN among the first three channels spreads: all of the first
    three channels of the result are NaN (no error is raised), while the
    entries from index 3 on are kept. *)
Theorem adjust_color_nan_spreads (color : list fnum) :
  NaN ∈ take 3 color →
  adjust_color color
  = Ok (replicate (length (take 3 color)) NaN ++ drop 3 color).
Proof.
  intros Hin. rewrite (adjust_color_Ok _ _ (np_max_has_NaN _ Hin)).
  unfold update_rgb. by rewrite adjust_channels_NaN.
Qed.

Lemma adjust_color_nan_spreads_witness :
  adjust_color (rgba (Fin 1) NaN (Fin 0) (Fin 1))
  = Ok (rgba NaN NaN NaN (Fin 1)).
Proof.
  apply (adjust_color_nan_spreads (rgba (Fin 1) NaN (Fin 0) (Fin 1))).
  apply list_elem_of_further, list_elem_of_here.
Defined.

Section floor_zero.

Lemma np_min_app (l1 l2 : list Qc) (a b : Qc) :
  np_min l1 = Ok a → np_min l2 = Ok b → np_min (l1 ++ l2) = Ok (py_min a b).
Proof.
  intros [Ha Hla]%np_min_Ok [Hb Hlb]%np_min_Ok. apply np_min_intro.
  - apply elem_of_app. destruct (py_min_cases a b) as [-> | ->]; auto.
  - intros x [Hx|Hx]%elem_of_app.
    + eapply Qcle_trans; [apply py_min_le_l | by apply Hla].
    + eapply Qcle_trans; [apply py_min_le_r | by apply Hlb].
Qed.

(** A floor offset of zero, read on the positions. *)
Lemma floor_zero_with_obstacle (cloth obs : frames) :
  floor_offset cloth (Some obs) = Ok 0 →
  (c0 ← index0 cloth; np_min (up_all obs ++ up_frame c0)) = Ok 0.
Proof.
  unfold floor_offset.
  destruct (np_min (up_all obs)) as [mo|] eqn:Hmo; [|done]. simpl.
  destruct cloth as [|c0 rest]; [done|]. simpl.
  destruct (np_min (up_frame c0)) as [mc|] eqn:Hmc; [|done]. simpl.
  unfold mret, result_ret. intros H.
  rewrite (np_min_app _ _ _ _ Hmo Hmc). congruence.
Qed.

End floor_zero.

(** * Further properties of [add_seq] *)

Section sequence_builder_more.

Context (x_shift y_shift : Qc) (cloth_color : option (list fnum))
  (nm : option string) (obstacle_opacity cloth_opacity : fnum).

Abbreviation build d :=
  (add_seq d x_shift y_shift cloth_color nm obstacle_opacity cloth_opacity).

Local Open Scope string_scope.

(** What a successful build has read and computed. *)
Lemma add_seq_Ok_inv (d : gmap string value) (out : list Meshes) :
  build d = Ok out →
  ∃ cf pos col cfaces pos',
    d !! "cloth_faces" = Some (VInt cf) ∧
    d !! "pred" = Some (VFloat pos) ∧
    normal_faces cf cf = Ok cfaces ∧
    adjust_color (default [Fin 0; c03; c03; cloth_opacity] cloth_color)
      = Ok col ∧
    match d !! "obstacle_faces" with
    | None =>
        place_meshes pos None x_shift y_shift = Ok (pos', None) ∧
        out = [MkMeshes pos' cfaces (str_opt nm +:+ "_cloth") col false]
    | Some ofv =>
        ∃ ofa op op' ofaces,
          ofv = VInt ofa ∧
          d !! "obstacle" = Some (VFloat op) ∧
          place_meshes pos (Some op) x_shift y_shift = Ok (pos', Some op') ∧
          normal_faces cf ofa = Ok ofaces ∧
          out = [MkMeshes pos' cfaces (str_opt nm +:+ "_cloth") col false;
                 MkMeshes op' ofaces (str_opt nm +:+ "_obstacle")
                          [c03; c03; c03; obstacle_opacity] false]
    end.
Proof.
  unfold add_seq, dict_get, normal_faces.
  destruct (d !! "cloth_faces") as [[?|cf]|];
    destruct (d !! "obstacle_faces") as [ofv|] eqn:Hof;
    destruct (d !! "obstacle") as [[op|?]|];
    destruct (d !! "pred") as [[pos|?]|]; run_result.
  all: try (exfalso; by eapply place_meshes_some_obstacle).
  all: try (exfalso; by eapply place_meshes_no_obstacle).
  all: intros [= <-].
  all: repeat match goal with
         | H : as_int ?v = Ok _ |- _ => destruct v; simpl in H; [done|]
         | H : Ok _ = Ok _ |- _ => injection H as ->
         end.
  all: eexists _, _, _, _, _; split_and!; try done.
  all: try (eexists _, _, _, _; split_and!).
  all: rewrite ?decide_True, ?decide_False by done.
  all: try done; try eassumption.
  all: match goal with
       | H : place_meshes _ None _ _ = Ok (_, ?o) |- _ =>
           destruct o; [exfalso; by eapply place_meshes_no_obstacle | done]
       end.
Qed.

(** X11.  [add_seq] reads the rollout through the keys ['cloth_faces'],
    ['obstacle_faces'], ['obstacle'] and ['pred'] only: adding, changing or
    deleting any other entry does not change its result. *)
Theorem add_seq_other_keys (d : gmap string value) (k : string) (v : value) :
  k ≠ "cloth_faces" → k ≠ "obstacle_faces" → k ≠ "obstacle" → k ≠ "pred" →
  build (<[k := v]> d) = build d ∧ build (delete k d) = build d.
Proof.
  intros H1 H2 H3 H4. split; apply add_seq_ext;
    first [by rewrite lookup_insert_ne | by rewrite lookup_delete_ne
          | intros _; by rewrite lookup_insert_ne
          | intros _; by rewrite lookup_delete_ne].
Qed.


End sequence_builder_more.

Lemma add_seq_other_keys_witness :
  add_seq (<["metrics" := VInt (I0 7)]> demo_rollout) 0 0 None None (Fin 1) (Fin 1)
  = add_seq demo_rollout 0 0 None None (Fin 1) (Fin 1).
Proof.
  exact (proj1 (add_seq_other_keys 0 0 None None (Fin 1) (Fin 1) demo_rollout
                  "metrics" (VInt (I0 7))
                  ltac:(discriminate) ltac:(discriminate)
                  ltac:(discriminate) ltac:(discriminate))).
Defined.

Lemma demo_scene_obstacle_key : is_Some (demo_scene !! "obstacle_faces").
Proof. vm_compute. by eexists. Defined.


(** X13.  Without a cloth colour, the cloth mesh of a successful build has
    the colour (0.3, 0.6, 0.6, cloth_opacity): the default (0, 0.3, 0.3)
    after adjustment. *)
Theorem add_seq_default_color (d : gmap string value) (xs ys : Qc)
    (nm : option string) (oo co : fnum) (out : list Meshes) :
  add_seq d xs ys None nm oo co = Ok out →
  ∃ mc rest,
    out = mc :: rest ∧
    color mc = [Fin (qfrac 3 10); Fin (qfrac 6 10); Fin (qfrac 6 10); co].
Proof.
  intros (cf & pos & col & cfaces & pos' & _ & _ & _ & Hcol & Hob)
    %add_seq_Ok_inv.
  assert (Hmax : qmax (qmax 0 (qfrac 3 10)) (qfrac 3 10) = qfrac 3 10).
  { assert (qmax 0 (qfrac 3 10) = qfrac 3 10) as ->.
    { unfold qmax. by rewrite decide_True by apply q03_pos. }
    unfold qmax. rewrite decide_False; [done|]. apply Qcle_not_lt, Qcle_refl. }
  change (default [Fin 0; c03; c03; co] None)
    with (rgba (Fin 0) (Fin (qfrac 3 10)) (Fin (qfrac 3 10)) co) in Hcol.
  rewrite adjust_color_finite in Hcol by (rewrite Hmax; apply q03_ne).
  rewrite Hmax, muted_zero, (muted_top _ q03_ne) in Hcol.
  injection Hcol as <-.
  destruct (d !! "obstacle_faces") as [ofv|].
  - destruct Hob as (ofa & op & op' & ofaces & _ & _ & _ & _ & ->).
    by eexists _, _.
  - destruct Hob as [_ ->]. by eexists _, _.
Qed.

Lemma add_seq_default_color_witness :
  ∃ out mc rest,
    add_seq demo_rollout 0 0 None None (Fin 1) (Fin (qfrac 1 2)) = Ok out ∧
    out = mc :: rest ∧
    color mc = [Fin (qfrac 3 10); Fin (qfrac 6 10); Fin (qfrac 6 10);
                Fin (qfrac 1 2)].
Proof.
  destruct (add_seq demo_rollout 0 0 None None (Fin 1) (Fin (qfrac 1 2)))
    as [out|e] eqn:E; [|vm_compute in E; discriminate E].
  destruct (add_seq_default_color _ _ _ _ _ _ _ E) as (mc & rest & H1 & H2).
  by exists out, mc, rest.
Defined.

(** * Further properties of the exporter *)

Section exporter_failures.

Local Open Scope string_scope.
Local Arguments String.append _ _ : simpl nomatch.

Lemma face_line_short (row : list Z) :
  (length row < 3)%nat → face_line (I1 row) = Err IndexError.
Proof.
  intros Hlen. destruct row as [|a [|b [|c row]]]; [done..|simpl in Hlen; lia].
Qed.

Lemma face_lines_bad_row (good : list (Z * Z * Z)) (bad : iarr)
    (more : list iarr) (e : pyerr) :
  Forall valid_triple good → face_line bad = Err e →
  face_lines ((I1 <$> ((λ '(a, b, c), [a; b; c]) <$> good)) ++ bad :: more)
  = (join_lines (obj_face_record <$> good), Err e).
Proof.
  intros Hgood Hbad. induction Hgood as [|[[a b] c] good Ht _ IH].
  - simpl. by rewrite Hbad.
  - rewrite !fmap_cons. cbn [app face_lines].
    rewrite face_line_triple, IH by done.
    change (join_lines (?l :: ?ls)) with (l +:+ newline +:+ join_lines ls).
    by rewrite app_assoc_s.
Qed.

(** The outcome of the exporter on a sequence that has a first frame. *)
Lemma export_first_frame (mesh : Meshes) dir base (w : world)
    (verts : list vec3) (later : frames) (e : pyerr) :
  vertices mesh = verts :: later →
  (faces_run (faces mesh)).2 = Err e →
  export_animated_mesh_to_obj_sequence mesh dir base w
  = (World (<[frame_path dir base 0 := frame_text (faces mesh) verts]> (files w))
           (stdout w), Err e).
Proof.
  intros Hv He. unfold export_animated_mesh_to_obj_sequence. rewrite Hv.
  rewrite (for_enumerate_err _ _ _ e) by done.
  unfold frame_written. by rewrite He, app_nil_r.
Qed.

End exporter_failures.

(** X17.  A face row with fewer than three entries stops the export with
    [IndexError] in the first frame: the file of frame 0 is left holding
    the vertex records and the records of the faces before that row,
    no other file is written or changed, and no line is printed. *)
Theorem export_short_face_row (mesh : Meshes) (output_dir basename : string)
    (w : world) (verts : list vec3) (later : frames)
    (good : list (Z * Z * Z)) (short : list Z) (more : list (list Z)) :
  vertices mesh = verts :: later →
  faces mesh = I2 (((λ '(a, b, c), [a; b; c]) <$> good) ++ short :: more) →
  Forall valid_triple good → (length short < 3)%nat →
  let run := export_animated_mesh_to_obj_sequence mesh output_dir basename w in
  run.2 = Err IndexError ∧
  files run.1 !! frame_path output_dir basename 0
    = Some (join_lines ((obj_vertex_record <$> verts)
                        ++ (obj_face_record <$> good))) ∧
  (∀ p, p ≠ frame_path output_dir basename 0 →
        files run.1 !! p = files w !! p) ∧
  stdout run.1 = stdout w.
Proof.
  intros Hv Hf Hgood Hshort run.
  assert (Hrun : faces_run (faces mesh)
                 = (join_lines (obj_face_record <$> good), Err IndexError)).
  { rewrite Hf. unfold faces_run, iter_arr. rewrite fmap_app, fmap_cons.
    apply face_lines_bad_row; [done | by apply face_line_short]. }
  unfold run. rewrite (export_first_frame _ _ _ _ verts later IndexError)
    by (by rewrite ?Hrun).
  cbn [fst snd files stdout]. split_and!; [done | | | done].
  - rewrite lookup_insert_eq. f_equal. unfold frame_text.
    by rewrite Hrun, verts_text_lines, join_lines_app.
  - intros p Hp. by rewrite lookup_insert_ne.
Qed.

Lemma export_short_face_row_witness :
  let mesh := MkMeshes demo_frames (I2 [[0; 1; 2]; [3; 4]; [5; 6; 7]]%Z)
                "m" [] false in
  let run := export_animated_mesh_to_obj_sequence mesh "out" "frame"
               demo_world in
  run.2 = Err IndexError ∧
  files run.1 !! "out/frame_0001.obj"%string = Some "stale content"%string.
Proof.
  intros mesh run.
  pose proof (export_short_face_row mesh "out" "frame" demo_world
                _ _ [(0, 1, 2)%Z] [3; 4]%Z [[5; 6; 7]%Z]
                eq_refl eq_refl demo_mesh_valid ltac:(simpl; lia))
    as (H1 & _ & H3 & _).
  split; [exact H1|].
  etrans; [apply H3; by vm_compute|]. by vm_compute.
Defined.

(** X18.  A face array given per frame cannot be exported: when the first
    row of its first frame has two entries or more, the export stops with
    [TypeError] in the first frame, leaving the file of frame 0 with the
    vertex records only. *)
Theorem export_per_frame_faces (mesh : Meshes) (output_dir basename : string)
    (w : world) (verts : list vec3) (later : frames)
    (a b : Z) (row : list Z) (rows : list (list Z))
    (frames_later : list (list (list Z))) :
  vertices mesh = verts :: later →
  faces mesh = I3 (((a :: b :: row) :: rows) :: frames_later) →
  let run := export_animated_mesh_to_obj_sequence mesh output_dir basename w in
  run.2 = Err TypeError ∧
  files run.1 !! frame_path output_dir basename 0
    = Some (join_lines (obj_vertex_record <$> verts)) ∧
  stdout run.1 = stdout w.
Proof.
  intros Hv Hf run.
  assert (Hrun : faces_run (faces mesh) = (""%string, Err TypeError)).
  { rewrite Hf. unfold faces_run, iter_arr. rewrite fmap_cons.
    cbn [face_lines]. by destruct row. }
  unfold run. rewrite (export_first_frame _ _ _ _ verts later TypeError)
    by (by rewrite ?Hrun).
  cbn [fst snd files stdout]. split_and!; [done | | done].
  rewrite lookup_insert_eq. f_equal. unfold frame_text.
  by rewrite Hrun, verts_text_lines, app_empty_r.
Qed.

Lemma export_per_frame_faces_witness :
  let mesh := MkMeshes demo_frames (I3 [[[0; 1; 2]]; [[0; 1; 2]]]%Z)
                "m" [] false in
  (export_animated_mesh_to_obj_sequence mesh "out" "frame" demo_world).2
  = Err TypeError.
Proof.
  intros mesh.
  exact (proj1 (export_per_frame_faces mesh "out" "frame" demo_world
                  _ _ 0%Z 1%Z [2%Z] [] [[[0; 1; 2]%Z]] eq_refl eq_refl)).
Defined.

(** * The exports of [write_video] *)

Section video_exports.

Local Open Scope string_scope.
Local Arguments String.append _ _ : simpl nomatch.

Lemma ends_with_slash_app (s : string) : ends_with_slash (s +:+ "/") = true.
Proof.
  induction s as [|c s IH]; [done|]. simpl.
  destruct (s +:+ "/") eqn:E; [by destruct s|]. exact IH.
Qed.

Lemma object_path out (k i : nat) :
  frame_path (object_dir out k) "frame" i
  = out +:+ "/" +:+ str_nat k +:+ "/frame_" +:+ fmt_04 i +:+ ".obj".
Proof.
  unfold frame_path, path_join, object_dir.
  change (starts_with_slash (frame_name "frame" i)) with false.
  cbn iota.
  replace (out +:+ "/" +:+ str_nat k +:+ "/")
    with ((out +:+ "/" +:+ str_nat k) +:+ "/") by (by rewrite !app_assoc_s).
  rewrite ends_with_slash_app, orb_true_r. unfold frame_name.
  by rewrite !app_assoc_s.
Qed.

Lemma object_path_0_1 out (i j : nat) :
  frame_path (object_dir out 0) "frame" i
  ≠ frame_path (object_dir out 1) "frame" j.
Proof.
  rewrite !object_path. intros H. apply (inj (String.app out)) in H.
  discriminate H.
Qed.

End video_exports.

(** X20.  The exports of [write_video] for a rollout with an obstacle (face
    lists of shape (F, 3) with valid indices): every frame of the cloth is
    written under [out_objs/0/] and every frame of the obstacle under
    [out_objs/1/], each file holding the records of its own mesh (one
    vertex record per vertex of the frame, then one face record per face,
    with the indices plus one); the export of the obstacle overwrites no
    file of the cloth. *)
Theorem write_video_exports_scene (d : gmap string value) (out_objs : string)
    (cmap0 : list fnum) (w : world) (mc mo : Meshes)
    (tc to : list (Z * Z * Z)) :
  add_seq d 0 0 (Some cmap0) None (Fin 1) (Fin 1) = Ok [mc; mo] →
  faces mc = faces_of_triples tc → Forall valid_triple32 tc →
  faces mo = faces_of_triples to → Forall valid_triple32 to →
  let run := write_video_exports d out_objs cmap0 w in
  run.2 = Ok () ∧
  (∀ i verts, vertices mc !! i = Some verts →
     files run.1 !! (out_objs +:+ "/0/frame_" +:+ fmt_04 i +:+ ".obj")%string
       = Some (obj_text verts tc) ∧
     obj_file_ok verts tc (obj_text verts tc)) ∧
  (∀ i verts, vertices mo !! i = Some verts →
     files run.1 !! (out_objs +:+ "/1/frame_" +:+ fmt_04 i +:+ ".obj")%string
       = Some (obj_text verts to) ∧
     obj_file_ok verts to (obj_text verts to)).
Proof.
  intros Hadd Hfc Htc%valid_triples32_64 Hfo Hto%valid_triples32_64 run.
  assert (Hokc : (faces_run (faces mc)).2 = Ok ())
    by (by rewrite Hfc, faces_run_triples).
  assert (Hoko : (faces_run (faces mo)).2 = Ok ())
    by (by rewrite Hfo, faces_run_triples).
  unfold run, write_video_exports, io_bind, io_lift. rewrite Hadd.
  cbn [print for_enumerate]. unfold io_bind.
  unfold export_animated_mesh_to_obj_sequence.
  rewrite !for_enumerate_ok by done. cbn [fst snd io_ret].
  split_and!; [done | |].
  - intros i verts Hi. split; [|apply obj_text_ok].
    change (out_objs +:+ "/0/frame_" +:+ fmt_04 i +:+ ".obj")%string
      with (out_objs +:+ "/" +:+ str_nat 0 +:+ "/frame_" +:+ fmt_04 i
            +:+ ".obj")%string.
    rewrite <-object_path, frames_written_other
      by (intros j _; apply object_path_0_1).
    rewrite (frames_written_lookup _ _ _ _ 0 _ i verts Hi).
    f_equal. rewrite Hfc. by apply frame_text_triples.
  - intros i verts Hi. split; [|apply obj_text_ok].
    change (out_objs +:+ "/1/frame_" +:+ fmt_04 i +:+ ".obj")%string
      with (out_objs +:+ "/" +:+ str_nat 1 +:+ "/frame_" +:+ fmt_04 i
            +:+ ".obj")%string.
    rewrite <-object_path.
    rewrite (frames_written_lookup _ _ _ _ 0 _ i verts Hi).
    f_equal. rewrite Hfo. by apply frame_text_triples.
Qed.

Lemma demo_scene_cloth_faces :
  demo_scene !! "cloth_faces" = Some (VInt (I2 [[0; 1; 2]]%Z)).
Proof. vm_compute. reflexivity. Defined.

Lemma demo_scene_obstacle_faces :
  demo_scene !! "obstacle_faces" = Some (VInt (I2 [[0; 0; 0]]%Z)).
Proof. vm_compute. reflexivity. Defined.

Lemma demo_scene_valid32 : Forall valid_triple32 [(0, 0, 0)%Z].
Proof. repeat constructor; unfold valid_index32; simpl; lia. Defined.

Lemma write_video_exports_scene_witness :
  ∃ out,
    add_seq demo_scene 0 0 (Some [Fin 1; Fin 0; Fin (qfrac 4 25); Fin 1]) None
      (Fin 1) (Fin 1) = Ok out ∧
    (write_video_exports demo_scene "objs"
       [Fin 1; Fin 0; Fin (qfrac 4 25); Fin 1] demo_world).2 = Ok ().
Proof.
  destruct (add_seq demo_scene 0 0 (Some [Fin 1; Fin 0; Fin (qfrac 4 25); Fin 1])
              None (Fin 1) (Fin 1)) as [out|e] eqn:E;
    [|vm_compute in E; discriminate E].
  exists out. split; [done|].
  destruct (add_seq_Ok_inv _ _ _ _ _ _ _ _ E)
    as (cf & pos & col & cfaces & pos' & Hcf & _ & Hn & _ & Hob).
  rewrite demo_scene_cloth_faces in Hcf. injection Hcf as <-.
  injection Hn as <-.
  rewrite demo_scene_obstacle_faces in Hob.
  destruct Hob as (ofa & op & op' & ofaces & Hofa & _ & _ & Hn & ->).
  injection Hofa as <-. injection Hn as <-.
  exact (proj1 (write_video_exports_scene demo_scene "objs" _ demo_world _ _
                  [(0, 1, 2)%Z] [(0, 0, 0)%Z] E eq_refl demo_mesh_valid32
                  eq_refl demo_scene_valid32)).
Defined.
